(** * Monte Carlo move selection: flat rollouts and UCT

    A shallow embedding of [techniques/monte_carlo.py]:
    [_monte_carlo_sample], [monte_carlo_tree_search],
    [_upper_confidence_bounds] and [monte_carlo_tree_search_uct].

    Conventions of the embedding.
    - Python [int] is [Z]; the counters of [defaultdict(int)] are [Z].
    - Python [float] values that the searches accumulate and compare
      (win ratios, normalised scores) are exact rationals [Q]; the
      transcendental part of UCB1 ([math.sqrt], [math.log]) is stated
      over the real numbers [R].
    - A [dict] is an association list in insertion order, because
      [min] and [max] over a dict return the first extremal key in
      iteration order.
    - Exceptions and non-termination are explicit: every function that
      can raise or loop returns an [outcome].
    - [random.choice] reads an oracle [nat -> nat] at a position that
      is threaded through the calls. *)

From Stdlib Require Import ZArith QArith List Bool Lia Lqa Reals Lra.
Import ListNotations.

Local Open Scope Z_scope.

(** ** Python runtime: exceptions and outcomes *)

Inductive exn : Set :=
| ValueError
| TypeError
| IndexError
| NameError
| KeyError
| ZeroDivisionError.

Inductive outcome (A : Type) : Type :=
| Return (a : A)
| Raise (e : exn)
| OutOfFuel.

Arguments Return {A} a.
Arguments Raise {A} e.
Arguments OutOfFuel {A}.

Definition bind {A B : Type} (c : outcome A) (k : A -> outcome B) : outcome B :=
  match c with
  | Return a => k a
  | Raise e => Raise e
  | OutOfFuel => OutOfFuel
  end.

Declare Scope py_scope.
Delimit Scope py_scope with py.
Notation "x <- c ;; k" := (bind c (fun x => k))
  (at level 100, c at next level, right associativity) : py_scope.
Notation "' p <- c ;; k" := (bind c (fun x => match x with p => k end))
  (at level 100, p pattern, c at next level, right associativity) : py_scope.
Local Open Scope py_scope.

(** ** Python runtime: insertion-ordered dictionaries *)

Section Dict.
Context {K V : Type}.
Variable K_eq_dec : forall x y : K, {x = y} + {x <> y}.

Definition dict := list (K * V).

(** [d.get(k)] *)
Fixpoint dict_get (d : dict) (k : K) : option V :=
  match d with
  | [] => None
  | (k', v) :: d' => if K_eq_dec k k' then Some v else dict_get d' k
  end.

(** [k in d] *)
Definition dict_contains (d : dict) (k : K) : bool :=
  match dict_get d k with Some _ => true | None => false end.

(** [d[k]] on a [defaultdict] whose factory yields [default]. The
    insertion of the default that a read of a missing key performs
    is not modelled: no later membership test or iteration of the
    source observes it. *)
Definition dict_item (default : V) (d : dict) (k : K) : V :=
  match dict_get d k with Some v => v | None => default end.

(** [d[k] = v]: an existing key keeps its position, a new key goes
    last. *)
Fixpoint dict_set (d : dict) (k : K) (v : V) : dict :=
  match d with
  | [] => [(k, v)]
  | (k', v') :: d' =>
      if K_eq_dec k k' then (k', v) :: d' else (k', v') :: dict_set d' k v
  end.

(** iteration over a dict yields its keys *)
Definition dict_keys (d : dict) : list K := map fst d.

Definition dict_values (d : dict) : list V := map snd d.
End Dict.

Arguments dict K V : clear implicits.

(** [max(seq, key=...)] and [min(seq, key=...)] keep the first extremal
    element: the running best is replaced only when [better new best]
    holds strictly. The elements come paired with their keys. *)
Fixpoint py_select_from {A W : Type} (better : W -> W -> bool)
    (best : A * W) (l : list (A * W)) : A :=
  match l with
  | [] => fst best
  | x :: l' =>
      if better (snd x) (snd best)
      then py_select_from better x l'
      else py_select_from better best l'
  end.

Definition py_select {A W : Type} (better : W -> W -> bool)
    (l : list (A * W)) : outcome A :=
  match l with
  | [] => Raise ValueError
  | x :: l' => Return (py_select_from better x l')
  end.

(** the key function is evaluated on every element, and may raise *)
Fixpoint with_keys {A W : Type} (key : A -> outcome W) (l : list A)
  : outcome (list (A * W)) :=
  match l with
  | [] => Return []
  | x :: l' =>
      w <- key x ;;
      r <- with_keys key l' ;;
      Return ((x, w) :: r)
  end.

Definition Qltb (x y : Q) : bool := negb (Qle_bool y x).

Definition py_max {A : Type} (key : A -> outcome Q) (l : list A) : outcome A :=
  kl <- with_keys key l ;; py_select (fun new best => Qltb best new) kl.

Definition py_min_Z {A : Type} (key : A -> outcome Z) (l : list A) : outcome A :=
  kl <- with_keys key l ;; py_select (fun new best => new <? best) kl.

(** true division [x / y] *)
Definition py_div (x y : Q) : outcome Q :=
  if Qeq_bool y 0 then Raise ZeroDivisionError else Return (x / y)%Q.

(** ** The game interface *)

(** a move is a pair [(int, int)] *)
Definition Move : Type := (Z * Z)%type.

Definition Move_eq_dec : forall x y : Move, {x = y} + {x <> y}.
Proof. decide equality; apply Z.eq_dec. Defined.

Definition OptMove_eq_dec : forall x y : option Move, {x = y} + {x <> y}.
Proof. decide equality; apply Move_eq_dec. Defined.

(** The methods of [game_spec] that the module calls. [has_winner]
    answers [None] on a position that is not terminal. *)
Record BaseGameSpec (board : Type) : Type := {
  has_winner : board -> option Z;
  available_moves : board -> list Move;
  apply_move : board -> Move -> Z -> board;
  flat_move_to_tuple : Z -> Move;
  tuple_move_to_flat : option Move -> Z
}.

Arguments has_winner {board} _ _.
Arguments available_moves {board} _ _.
Arguments apply_move {board} _ _ _ _.
Arguments flat_move_to_tuple {board} _ _.
Arguments tuple_move_to_flat {board} _ _.

(** the keys a statistics table of the tree search can be asked for:
    board states, and the integers that unpacking a move yields. A
    board state is a tuple, as the docstrings say, and so never equal
    to an integer. *)
Inductive pykey (board : Type) : Type :=
| KBoard (b : board)
| KInt (z : Z).

Arguments KBoard {board} b.
Arguments KInt {board} z.

Section Search.
Variable board : Type.
Variable board_eq_dec : forall x y : board, {x = y} + {x <> y}.
Variable game_spec : BaseGameSpec board.
(** the random source: draw number [pos] of the run *)
Variable oracle : nat -> nat.
(** [get_stochastic_network_move] of [common.network_helpers], with
    the session and layers fixed: the indicator vector it returns for
    a board and side at draw [pos] *)
Variable get_stochastic_network_move : nat -> board -> Z -> list Z.

Definition pykey_eq_dec : forall x y : pykey board, {x = y} + {x <> y}.
Proof. decide equality; auto using Z.eq_dec. Defined.

(** [random.choice(seq)] *)
Definition random_choice {A : Type} (seq : list A) (pos : nat)
  : outcome (A * nat) :=
  match nth_error seq (oracle pos mod length seq)%nat with
  | Some x => Return (x, S pos)
  | None => Raise IndexError
  end.

(** [[i for i, x in enumerate(v) if x == 1]] *)
Fixpoint indices_of_one (i : Z) (v : list Z) : list Z :=
  match v with
  | [] => []
  | x :: v' =>
      if x =? 1 then i :: indices_of_one (i + 1) v'
      else indices_of_one (i + 1) v'
  end.

(** the move of one rollout step: the policy network's, or a random
    legal one *)
Definition select_move (policy : bool) (board_state : board) (side : Z)
    (moves : list Move) (pos : nat) : outcome (Move * nat) :=
  if policy then
    match indices_of_one 0 (get_stochastic_network_move pos board_state side) with
    | [] => Raise IndexError
    | i :: _ => Return (flat_move_to_tuple game_spec i, S pos)
    end
  else random_choice moves pos.

(** *** [_monte_carlo_sample] *)
Fixpoint _monte_carlo_sample (fuel : nat) (board_state : board) (side : Z)
    (policy : bool) (pos : nat) : outcome (Z * option Move * nat) :=
  match fuel with
  | O => OutOfFuel
  | S fuel' =>
      match has_winner game_spec board_state with
      | Some result => Return (result, None, pos)
      | None =>
          let moves := available_moves game_spec board_state in
          match moves with
          | [] => Return (0, None, pos)
          | _ :: _ =>
              '(move, pos1) <- select_move policy board_state side moves pos ;;
              '(result, next_move, pos2) <-
                _monte_carlo_sample fuel'
                  (apply_move game_spec board_state move side) (- side)
                  policy pos1 ;;
              Return (result, Some move, pos2)
          end
      end
  end.

(** *** [monte_carlo_tree_search] *)

(** [defaultdict(int)] keyed by the first move of a rollout, which is
    [None] when the rollout started on a finished position *)
Definition counter : Type := dict (option Move) Z.

(** [d[k] += 1] *)
Definition counter_incr (d : counter) (k : option Move) : counter :=
  dict_set OptMove_eq_dec d k (dict_item OptMove_eq_dec 0 d k + 1).

(** the variables that are live across the sampling loop; [move] is
    unbound until the first rollout has returned *)
Record flat_vars : Type := {
  move_wins : counter;
  move_samples : counter;
  move : option (option Move)
}.

Definition flat_init : flat_vars :=
  {| move_wins := []; move_samples := []; move := None |}.

(** [n] passes through the body of [for _ in range(number_of_samples)] *)
Fixpoint flat_rollouts (n : nat) (fuel : nat) (board_state : board) (side : Z)
    (policy : bool) (st : flat_vars) (pos : nat) : outcome (flat_vars * nat) :=
  match n with
  | O => Return (st, pos)
  | S n' =>
      '(result, mv, pos1) <- _monte_carlo_sample fuel board_state side policy pos ;;
      let wins := if result =? side then counter_incr (move_wins st) mv
                  else move_wins st in
      let samples := counter_incr (move_samples st) mv in
      flat_rollouts n' fuel board_state side policy
        {| move_wins := wins; move_samples := samples; move := Some mv |} pos1
  end.

(** the [if len(move_wins)==0: ... else: ...] that rebinds [move] *)
Definition flat_best_move (st : flat_vars) : outcome (option Move) :=
  if (length (move_wins st) =? 0)%nat then
    py_min_Z
      (fun x => match dict_get OptMove_eq_dec (move_samples st) x with
                | Some n => Return n
                | None => Raise TypeError
                end)
      (dict_keys (move_samples st))
  else
    py_max
      (fun x => match move st with
                | None => Raise NameError
                | Some mv =>
                    match dict_get OptMove_eq_dec (move_wins st) x with
                    | None => Raise TypeError
                    | Some w =>
                        py_div (inject_Z w)
                          (inject_Z (dict_item OptMove_eq_dec 0 (move_samples st) mv))
                    end
                end)
      (dict_keys (move_wins st)).

(** [l[i] = v] for an index already reduced to [0 <= i < len(l)] *)
Fixpoint list_assign {A : Type} (l : list A) (i : nat) (v : A) : list A :=
  match l, i with
  | [], _ => []
  | _ :: l', O => v :: l'
  | x :: l', S i' => x :: list_assign l' i' v
  end.

(** [listofzeros = [0] * 81; listofzeros[flat_move] = 1]; a negative
    index counts from the end *)
Definition one_hot_81 (flat_move : Z) : outcome (list Z) :=
  if (-81 <=? flat_move) && (flat_move <? 81)
  then Return (list_assign (repeat 0 81%nat) (Z.to_nat (flat_move mod 81)) 1)
  else Raise IndexError.

(** the statements after the loop *)
Definition flat_finish (policy : bool) (st : flat_vars)
  : outcome (Q * (option Move + list Z)) :=
  mv <- flat_best_move st ;;
  label <- (if policy
            then v <- one_hot_81 (tuple_move_to_flat game_spec mv) ;; Return (inr v)
            else Return (inl mv)) ;;
  confidence <- py_div (inject_Z (dict_item OptMove_eq_dec 0 (move_wins st) mv))
                       (inject_Z (dict_item OptMove_eq_dec 0 (move_samples st) mv)) ;;
  Return (confidence, label).

Definition monte_carlo_tree_search (fuel : nat) (board_state : board) (side : Z)
    (number_of_samples : Z) (policy : bool) (pos : nat)
  : outcome (Q * (option Move + list Z)) :=
  '(st, _) <- flat_rollouts (Z.to_nat number_of_samples) fuel board_state side
                policy flat_init pos ;;
  flat_finish policy st.

(** *** [monte_carlo_tree_search_uct] *)

(** [defaultdict(float)] *)
Definition table : Type := dict (pykey board) Q.

Definition table_item (d : table) (k : pykey board) : Q :=
  dict_item pykey_eq_dec 0%Q d k.

(** [d[k] += v] *)
Definition table_add (d : table) (k : pykey board) (v : Q) : table :=
  dict_set pykey_eq_dec d k (table_item d k + v)%Q.

(** [{move: game_spec.apply_move(board_state, move, side)
      for move in game_spec.available_moves(board_state)}] *)
Definition move_states_of (board_state : board) (side : Z) : dict Move board :=
  fold_left
    (fun d mv => dict_set Move_eq_dec d mv (apply_move game_spec board_state mv side))
    (available_moves game_spec board_state) [].

(** [all((state in state_samples) for _, state in move_states)]:
    iterating the dict yields its keys, the moves, and each move
    [(row, column)] is unpacked into [_, state] *)
Definition all_in_state_samples (state_samples : table)
    (move_states : dict Move board) : bool :=
  forallb (fun mv : Move => dict_contains pykey_eq_dec state_samples (KInt (snd mv)))
          (dict_keys move_states).

Definition Qsum (l : list Q) : Q := fold_left Qplus l 0%Q.

(** The move of one descent step. In the first branch [math.log]
    raises [ValueError] on a total that is not positive; otherwise
    [max] calls its two-parameter [key] function with one argument,
    which raises [TypeError]. *)
Definition descent_move (state_samples : table) (move_states : dict Move board)
    (pos : nat) : outcome (Move * nat) :=
  if all_in_state_samples state_samples move_states then
    let total := Qsum (map (fun s => table_item state_samples (KBoard s))
                           (dict_values move_states)) in
    if Qle_bool total 0 then Raise ValueError else Raise TypeError
  else random_choice (dict_keys move_states) pos.

(** the [while result == None] loop of one iteration; it yields the
    terminal result and the rollout path *)
Fixpoint uct_descend (fuel : nat) (state_samples : table)
    (current_board_state : board) (current_side : Z)
    (first_unvisited_node : bool) (rollout_path : list (board * Z))
    (pos : nat) : outcome (Z * list (board * Z) * nat) :=
  match fuel with
  | O => OutOfFuel
  | S fuel' =>
      let move_states := move_states_of current_board_state current_side in
      match move_states with
      | [] => Return (0, rollout_path, pos)
      | _ :: _ =>
          '(mv, pos1) <- descent_move state_samples move_states pos ;;
          match dict_get Move_eq_dec move_states mv with
          | None => Raise KeyError
          | Some next_board_state =>
              let rollout_path1 :=
                if first_unvisited_node
                then rollout_path ++ [(next_board_state, current_side)]
                else rollout_path in
              let first_unvisited_node1 :=
                if first_unvisited_node
                then dict_contains pykey_eq_dec state_samples (KBoard next_board_state)
                else false in
              match has_winner game_spec next_board_state with
              | Some result => Return (result, rollout_path1, pos1)
              | None =>
                  uct_descend fuel' state_samples next_board_state (- current_side)
                    first_unvisited_node1 rollout_path1 pos1
              end
          end
      end
  end.

(** the variables of the backup loop; [result] is carried from one
    path entry to the next *)
Record backup_vars : Type := {
  result : Q;
  state_results : table;
  state_samples : table
}.

(** the body of [for path_board_state, path_side in rollout_path] *)
Definition backup_step (v : backup_vars) (entry : board * Z) : backup_vars :=
  let '(path_board_state, path_side) := entry in
  let samples := table_add (state_samples v) (KBoard path_board_state) 1 in
  let r := (result v * inject_Z path_side / 2 + (1 # 2))%Q in
  {| result := r;
     state_results := table_add (state_results v) (KBoard path_board_state) r;
     state_samples := samples |}.

Definition backup (rollout_path : list (board * Z)) (v : backup_vars) : backup_vars :=
  fold_left backup_step rollout_path v.

(** one pass through the body of the sampling loop *)
Definition uct_iteration (fuel : nat) (board_state : board) (side : Z)
    (results samples : table) (pos : nat) : outcome (table * table * nat) :=
  '(res, rollout_path, pos1) <-
    uct_descend fuel samples board_state side true [] pos ;;
  let v := backup rollout_path
             {| result := inject_Z res; state_results := results;
                state_samples := samples |} in
  Return (state_results v, state_samples v, pos1).

Fixpoint uct_iterations (n : nat) (fuel : nat) (board_state : board) (side : Z)
    (results samples : table) (pos : nat) : outcome (table * table * nat) :=
  match n with
  | O => Return (results, samples, pos)
  | S n' =>
      '(results1, samples1, pos1) <-
        uct_iteration fuel board_state side results samples pos ;;
      uct_iterations n' fuel board_state side results1 samples1 pos1
  end.

(** the divisor of the final ranking: [10e3] for a state without samples *)
Definition ranking_divisor (samples : table) (s : board) : Q :=
  if Qltb 0 (table_item samples (KBoard s))
  then table_item samples (KBoard s)
  else 10000%Q.

(** the statements after the loop *)
Definition uct_finish (board_state : board) (side : Z) (results samples : table)
  : outcome (Q * Move) :=
  let move_states := move_states_of board_state side in
  let state_of := fun x =>
    match dict_get Move_eq_dec move_states x with
    | Some s => Return s
    | None => Raise KeyError
    end in
  mv <- py_max (fun x => s <- state_of x ;;
                         py_div (table_item results (KBoard s)) (ranking_divisor samples s))
               (dict_keys move_states) ;;
  s <- state_of mv ;;
  confidence <- py_div (table_item results (KBoard s)) (table_item samples (KBoard s)) ;;
  Return (confidence, mv).

Definition monte_carlo_tree_search_uct (fuel : nat) (board_state : board)
    (side : Z) (number_of_samples : Z) (pos : nat) : outcome (Q * Move) :=
  '(results, samples, _) <-
    uct_iterations (Z.to_nat number_of_samples) fuel board_state side [] [] pos ;;
  uct_finish board_state side results samples.

End Search.

Arguments random_choice oracle {A} seq pos.
Arguments result {board} _.
Arguments state_results {board} _.
Arguments state_samples {board} _.

(** *** [_upper_confidence_bounds] *)

Definition _upper_confidence_bounds
    (payout samples_for_this_machine log_total_samples : R) : R :=
  (payout / samples_for_this_machine
   + sqrt ((2 * log_total_samples) / samples_for_this_machine))%R.

(** the second summand: the exploration bonus of a child with
    [child_samples] samples among siblings with [total_child_samples] *)
Definition exploration_bonus (child_samples total_child_samples : Z) : R :=
  (_upper_confidence_bounds 0 (IZR child_samples) (ln (IZR total_child_samples)))%R.

(** ** A small game to run the searches on

    From [Root] the move [(0,0)] leads to [A] and [(0,1)] to [B]. [B]
    is won by the plus player. From [A] the move [(0,0)] leads to [W],
    won by the plus player, and [(0,1)] to [L], won by the minus
    player. [D] is a blocked position: not finished, without moves. *)

Inductive toy : Set := Root | A | B | W | L | D.

Definition toy_eq_dec : forall x y : toy, {x = y} + {x <> y}.
Proof. decide equality. Defined.

Definition toy_has_winner (b : toy) : option Z :=
  match b with
  | B | W => Some 1
  | L => Some (-1)
  | Root | A | D => None
  end.

Definition toy_available_moves (b : toy) : list Move :=
  match b with
  | Root | A => [(0, 0); (0, 1)]
  | _ => []
  end.

Definition toy_apply_move (b : toy) (mv : Move) (side : Z) : toy :=
  match b with
  | Root => if snd mv =? 0 then A else B
  | A => if snd mv =? 0 then W else L
  | _ => b
  end.

Definition toy_spec : BaseGameSpec toy :=
  {| has_winner := toy_has_winner;
     available_moves := toy_available_moves;
     apply_move := toy_apply_move;
     flat_move_to_tuple := fun i => (i / 9, i mod 9);
     tuple_move_to_flat := fun mv => match mv with
                                     | Some (r, c) => 9 * r + c
                                     | None => 0
                                     end |}.

(** the longest play from a position *)
Definition toy_depth (b : toy) : nat :=
  match b with
  | Root => 2
  | A => 1
  | _ => 0
  end.

(** a random source that replays a list of draws, then zeros *)
Definition draws (l : list nat) : nat -> nat := fun pos => nth pos l 0%nat.

(** a policy network that always indicates cell 1, the move [(0,1)] *)
Definition toy_network : nat -> toy -> Z -> list Z :=
  fun _ _ _ => [0; 1; 0].

Definition toy_sample (l : list nat) :=
  _monte_carlo_sample toy toy_spec (draws l) toy_network.

Definition toy_flat (l : list nat) :=
  monte_carlo_tree_search toy toy_spec (draws l) toy_network.

Definition toy_flat_rollouts (l : list nat) :=
  flat_rollouts toy toy_spec (draws l) toy_network.

Definition toy_uct (l : list nat) :=
  monte_carlo_tree_search_uct toy toy_eq_dec toy_spec (draws l).

Definition toy_uct_iterations (l : list nat) :=
  uct_iterations toy toy_eq_dec toy_spec (draws l).

(** the two tables after three iterations of the tree search from
    [Root] for the plus player, with the draws 1, 0, 1, 0 *)
Definition toy_tables_3 : table toy * table toy :=
  Eval vm_compute in
    match toy_uct_iterations [1; 0; 1; 0]%nat 3 3 Root 1 [] [] 0 with
    | Return (results, samples, _) => (results, samples)
    | _ => ([], [])
    end.

(** ** Assumptions on a game that the statements name *)

(** every move from an unfinished position lowers [depth]: all plays
    are finite *)
Definition bounded_play {board : Type} (game_spec : BaseGameSpec board)
    (depth : board -> nat) : Prop :=
  forall b mv side,
    has_winner game_spec b = None ->
    In mv (available_moves game_spec b) ->
    (depth (apply_move game_spec b mv side) < depth b)%nat.

(** a result is +1, -1 or 0 *)
Definition results_in_range {board : Type} (game_spec : BaseGameSpec board) : Prop :=
  forall b r, has_winner game_spec b = Some r -> -1 <= r <= 1.

(** every key of a table is a board state *)
Definition board_keys_only {board : Type} (t : dict (pykey board) Q) : Prop :=
  forall z, ~ In (KInt z) (dict_keys t).

(** what the sampling loop of the flat search maintains: distinct
    keys, counts of at least 1, every winning move sampled, every
    sampled key accepted by [P], and [move] bound to a sampled key once
    a rollout has returned *)
Definition flat_inv (P : option Move -> Prop) (st : flat_vars) : Prop :=
  NoDup (dict_keys (move_wins st)) /\
  NoDup (dict_keys (move_samples st)) /\
  (forall k v, In (k, v) (move_wins st) -> 1 <= v) /\
  (forall k v, In (k, v) (move_samples st) -> 1 <= v) /\
  (forall k, In k (dict_keys (move_wins st)) -> In k (dict_keys (move_samples st))) /\
  (forall k, In k (dict_keys (move_samples st)) -> P k) /\
  (forall mv, move st = Some mv -> In mv (dict_keys (move_samples st))) /\
  (move_samples st <> [] -> move st <> None).

(** [m] is the first key of [d] whose value [better] does not beat *)
Definition first_best {X W : Type} (better : W -> W -> bool)
    (d : list (X * W)) (m : X) : Prop :=
  exists pre w post,
    d = pre ++ (m, w) :: post /\
    (forall y, In y pre -> better w (snd y) = true) /\
    (forall y, In y post -> better (snd y) w = false).

(** the counter that holds [m] under the key [None], and nothing else *)
Definition only_none (m : Z) : counter :=
  if m =? 0 then [] else [(None, m)].

(** every accumulated score lies between 0 and the sample count of
    its key *)
Definition scores_bounded {board : Type}
    (board_eq_dec : forall x y : board, {x = y} + {x <> y})
    (results samples : dict (pykey board) Q) : Prop :=
  forall k, (0 <= table_item board board_eq_dec results k
               <= table_item board board_eq_dec samples k)%Q.

(** a side is +1 or -1 *)
Definition is_side (s : Z) : Prop := s = 1 \/ s = -1.

(** [sum(d.values())] of a counter *)
Definition counter_total (d : counter) : Z :=
  fold_right Z.add 0 (dict_values d).

(** [path] is a play from [b] with [s] to move: every entry holds the
    state a legal move of the side to move leads to, and that side *)
Fixpoint legal_play {board : Type} (game_spec : BaseGameSpec board)
    (b : board) (s : Z) (path : list (board * Z)) : Prop :=
  match path with
  | [] => True
  | (b1, s1) :: rest =>
      s1 = s /\
      (exists mv, In mv (available_moves game_spec b) /\
                  b1 = apply_move game_spec b mv s) /\
      legal_play game_spec b1 (- s) rest
  end.

(** * Properties *)

(** ** The UCB1 score *)

Lemma ucb_splits (payout : R) (child_samples total_child_samples : Z) :
  _upper_confidence_bounds payout (IZR child_samples) (ln (IZR total_child_samples))
  = (payout / IZR child_samples
     + exploration_bonus child_samples total_child_samples)%R.
Proof.
  unfold exploration_bonus, _upper_confidence_bounds.
  unfold Rdiv. rewrite Rmult_0_l, Rplus_0_l. reflexivity.
Qed.

Lemma exploration_bonus_sqrt (c t : Z) :
  exploration_bonus c t = sqrt (2 * ln (IZR t) / IZR c).
Proof.
  unfold exploration_bonus, _upper_confidence_bounds.
  unfold Rdiv. rewrite Rmult_0_l, Rplus_0_l. reflexivity.
Qed.

Lemma ln_pos_from_two (t : Z) : 2 <= t -> (0 < ln (IZR t))%R.
Proof.
  intro Ht. rewrite <- ln_1. apply ln_increasing; [lra |].
  apply IZR_lt. lia.
Qed.

(** C9: for integers 1 <= child_samples <= total_child_samples with
    total_child_samples >= 2, the exploration bonus
    sqrt(2 * ln(total_child_samples) / child_samples) strictly
    decreases when child_samples grows and the total is fixed, and
    strictly increases when the total grows and child_samples is
    fixed. *)
Theorem exploration_bonus_monotone :
  (forall c1 c2 t : Z,
      1 <= c1 -> c1 < c2 -> c2 <= t -> 2 <= t ->
      (exploration_bonus c2 t < exploration_bonus c1 t)%R) /\
  (forall c t1 t2 : Z,
      1 <= c -> c <= t1 -> 2 <= t1 -> t1 < t2 ->
      (exploration_bonus c t1 < exploration_bonus c t2)%R).
Proof.
  split.
  - intros c1 c2 t Hc1 Hlt Hc2 Ht.
    rewrite !exploration_bonus_sqrt.
    pose proof (ln_pos_from_two t Ht) as Hln.
    assert (H1 : (0 < IZR c1)%R) by (apply IZR_lt; lia).
    assert (H2 : (IZR c1 < IZR c2)%R) by (apply IZR_lt; lia).
    apply sqrt_lt_1_alt. split.
    + apply Rlt_le, Rdiv_lt_0_compat; lra.
    + unfold Rdiv. apply Rmult_lt_compat_l; [lra |].
      apply Rinv_lt_contravar; [apply Rmult_lt_0_compat; lra | exact H2].
  - intros c t1 t2 Hc Hct Ht1 Hlt.
    rewrite !exploration_bonus_sqrt.
    pose proof (ln_pos_from_two t1 Ht1) as Hln.
    assert (H1 : (0 < IZR c)%R) by (apply IZR_lt; lia).
    assert (H2 : (ln (IZR t1) < ln (IZR t2))%R).
    { apply ln_increasing; [apply IZR_lt; lia | apply IZR_lt; lia]. }
    apply sqrt_lt_1_alt. split.
    + apply Rlt_le, Rdiv_lt_0_compat; lra.
    + unfold Rdiv. apply Rmult_lt_compat_r; [apply Rinv_0_lt_compat; lra | lra].
Qed.

Lemma exploration_bonus_monotone_witness :
  (exploration_bonus 2 3 < exploration_bonus 1 3)%R /\
  (exploration_bonus 1 2 < exploration_bonus 1 3)%R.
Proof.
  split.
  - apply (proj1 exploration_bonus_monotone 1 2 3); lia.
  - apply (proj2 exploration_bonus_monotone 1 2 3); lia.
Defined.

(** ** Dictionaries, [min] and [max] *)

Section DictFacts.
Context {K V : Type}.
Variable K_eq_dec : forall x y : K, {x = y} + {x <> y}.

Local Abbreviation get := (dict_get K_eq_dec).
Local Abbreviation set := (dict_set K_eq_dec).

Lemma dict_get_set_same (d : dict K V) k v : get (set d k v) k = Some v.
Proof.
  induction d as [| [k' v'] d IH]; simpl.
  - destruct (K_eq_dec k k); congruence.
  - destruct (K_eq_dec k k') as [E | E]; simpl.
    + destruct (K_eq_dec k k'); congruence.
    + destruct (K_eq_dec k k'); [congruence | exact IH].
Qed.

Lemma dict_get_set_other (d : dict K V) k v k0 :
  k0 <> k -> get (set d k v) k0 = get d k0.
Proof.
  intro Hne. induction d as [| [k' v'] d IH]; simpl.
  - destruct (K_eq_dec k0 k); congruence.
  - destruct (K_eq_dec k k') as [E | E]; simpl.
    + subst k'. destruct (K_eq_dec k0 k); congruence.
    + destruct (K_eq_dec k0 k'); [reflexivity | exact IH].
Qed.

Lemma dict_get_none (d : dict K V) k :
  get d k = None <-> ~ In k (dict_keys d).
Proof.
  induction d as [| [k' v'] d IH]; simpl.
  - tauto.
  - destruct (K_eq_dec k k') as [E | E].
    + subst. split; [discriminate | intro H; exfalso; apply H; left; reflexivity].
    + rewrite IH. split; intro H; [intros [H1 | H1]; [congruence | tauto] | tauto].
Qed.

Lemma dict_get_in (d : dict K V) k v : get d k = Some v -> In (k, v) d.
Proof.
  induction d as [| [k' v'] d IH]; simpl; [discriminate |].
  destruct (K_eq_dec k k') as [E | E].
  - intro H. inversion H. subst. left; reflexivity.
  - intro H. right. apply IH, H.
Qed.

Lemma dict_in_get (d : dict K V) k v :
  NoDup (dict_keys d) -> In (k, v) d -> get d k = Some v.
Proof.
  induction d as [| [k' v'] d IH]; simpl; [tauto |].
  intros Hnd [H | H].
  - inversion H. subst. destruct (K_eq_dec k k); congruence.
  - inversion Hnd as [| ? ? Hnotin Hnd']. subst.
    destruct (K_eq_dec k k') as [E | E].
    + subst. exfalso. apply Hnotin. apply (in_map fst) in H. exact H.
    + apply IH; assumption.
Qed.

Lemma dict_contains_keys (d : dict K V) k :
  dict_contains K_eq_dec d k = true <-> In k (dict_keys d).
Proof.
  unfold dict_contains. destruct (get d k) eqn:E.
  - split; [intros _ | reflexivity].
    apply dict_get_in in E. apply (in_map fst) in E. exact E.
  - split; [discriminate |]. intro H. apply dict_get_none in E. contradiction.
Qed.

Lemma dict_keys_set (d : dict K V) k v k0 :
  In k0 (dict_keys (set d k v)) <-> k0 = k \/ In k0 (dict_keys d).
Proof.
  induction d as [| [k' v'] d IH]; simpl.
  - intuition congruence.
  - destruct (K_eq_dec k k') as [E | E]; simpl.
    + subst. intuition congruence.
    + rewrite IH. intuition congruence.
Qed.

Lemma dict_set_NoDup (d : dict K V) k v :
  NoDup (dict_keys d) -> NoDup (dict_keys (set d k v)).
Proof.
  induction d as [| [k' v'] d IH]; simpl; intro Hnd.
  - constructor; [simpl; tauto | constructor].
  - inversion Hnd as [| ? ? Hnotin Hnd']. subst.
    destruct (K_eq_dec k k') as [E | E]; simpl.
    + constructor; assumption.
    + constructor; [| apply IH; assumption].
      fold (dict_keys (set d k v)). rewrite dict_keys_set. intros [H | H]; congruence.
Qed.

Lemma dict_in_set (d : dict K V) k v k0 v0 :
  In (k0, v0) (set d k v) -> (k0 = k /\ v0 = v) \/ In (k0, v0) d.
Proof.
  induction d as [| [k' v'] d IH]; simpl.
  - intros [H | H]; [inversion H; auto | tauto].
  - destruct (K_eq_dec k k') as [E | E]; simpl.
    + intros [H | H]; [inversion H; subst; auto | auto].
    + intros [H | H]; [auto | destruct (IH H); auto].
Qed.

Lemma dict_item_set_same (default : V) (d : dict K V) k v :
  dict_item K_eq_dec default (set d k v) k = v.
Proof. unfold dict_item. rewrite dict_get_set_same. reflexivity. Qed.

Lemma dict_item_set_other (default : V) (d : dict K V) k v k0 :
  k0 <> k ->
  dict_item K_eq_dec default (set d k v) k0 = dict_item K_eq_dec default d k0.
Proof. intro H. unfold dict_item. rewrite dict_get_set_other by exact H. reflexivity. Qed.

(** reading every key of a dict back through [get] rebuilds the dict *)
Lemma with_keys_get {W : Type} (d : dict K V) (f : V -> outcome W) (g : V -> W) :
  NoDup (dict_keys d) ->
  forall l : dict K V,
    (forall k v, In (k, v) l -> In (k, v) d /\ f v = Return (g v)) ->
    with_keys (fun x => match get d x with
                        | Some v => f v
                        | None => Raise TypeError
                        end) (dict_keys l)
    = Return (map (fun kv => (fst kv, g (snd kv))) l).
Proof.
  intros Hnd l. induction l as [| [k v] l IH]; intro Hl; simpl.
  - reflexivity.
  - destruct (Hl k v (or_introl eq_refl)) as [Hin Hf].
    rewrite (dict_in_get d k v Hnd Hin), Hf. simpl.
    fold (dict_keys l). rewrite IH; [reflexivity |].
    intros k0 v0 H0. apply Hl. right. exact H0.
Qed.

End DictFacts.

Section SelectFacts.
Context {X W : Type}.
Variable better : W -> W -> bool.
Hypothesis better_trans :
  forall a b c, better a b = true -> better b c = true -> better a c = true.
Hypothesis better_over :
  forall a b c, better a b = true -> better c b = false -> better a c = true.

(** [py_select_from] answers the first element that no other element
    beats: it beats everything before it, and nothing after beats it *)
Lemma py_select_from_first (l : list (X * W)) :
  forall (pre post : list (X * W)) (best : X * W),
    (forall y, In y pre -> better (snd best) (snd y) = true) ->
    (forall y, In y post -> better (snd y) (snd best) = false) ->
    exists pre' w post',
      pre ++ best :: post ++ l = pre' ++ (py_select_from better best l, w) :: post' /\
      (forall y, In y pre' -> better w (snd y) = true) /\
      (forall y, In y post' -> better (snd y) w = false).
Proof.
  induction l as [| x l IH]; intros pre post best Hpre Hpost; simpl.
  - exists pre, (snd best), post. rewrite app_nil_r.
    destruct best; simpl. auto.
  - destruct (better (snd x) (snd best)) eqn:E.
    + destruct (IH (pre ++ best :: post) [] x) as (pre' & w & post' & Heq & H1 & H2).
      * intros y Hy. apply in_app_or in Hy. destruct Hy as [Hy | [Hy | Hy]].
        -- eapply better_trans; [exact E | apply Hpre, Hy].
        -- subst y. exact E.
        -- eapply better_over; [exact E | apply Hpost, Hy].
      * simpl; tauto.
      * exists pre', w, post'. split; [| auto].
        rewrite <- Heq. simpl. rewrite <- app_assoc. reflexivity.
    + destruct (IH pre (post ++ [x]) best) as (pre' & w & post' & Heq & H1 & H2).
      * exact Hpre.
      * intros y Hy. apply in_app_or in Hy. destruct Hy as [Hy | [Hy | []]].
        -- apply Hpost, Hy.
        -- subst y. exact E.
      * exists pre', w, post'. split; [| auto].
        rewrite <- Heq. rewrite <- app_assoc. reflexivity.
Qed.

Lemma py_select_first (l : list (X * W)) :
  l <> [] ->
  exists m pre w post,
    py_select better l = Return m /\
    l = pre ++ (m, w) :: post /\
    (forall y, In y pre -> better w (snd y) = true) /\
    (forall y, In y post -> better (snd y) w = false).
Proof.
  destruct l as [| x l]; [congruence | intros _].
  destruct (py_select_from_first l [] [] x) as (pre & w & post & Heq & H1 & H2);
    try (simpl; tauto).
  exists (py_select_from better x l), pre, w, post. simpl in Heq. auto.
Qed.

End SelectFacts.

(** ** The rollout sampler *)

Section SamplerFacts.
Variable board : Type.
Variable game_spec : BaseGameSpec board.
Variable oracle : nat -> nat.
Variable network : nat -> board -> Z -> list Z.

Local Abbreviation sample := (_monte_carlo_sample board game_spec oracle network).
Local Abbreviation pick := (select_move board game_spec oracle network).

Lemma random_choice_in {X : Type} (seq : list X) (pos : nat) :
  seq <> [] ->
  exists x, random_choice oracle seq pos = Return (x, S pos) /\ In x seq.
Proof.
  intro Hne. unfold random_choice.
  destruct (nth_error seq (oracle pos mod length seq)%nat) as [x |] eqn:E.
  - exists x. split; [reflexivity | eapply nth_error_In; eassumption].
  - exfalso. apply nth_error_None in E.
    assert (length seq <> 0)%nat by (destruct seq; simpl; congruence).
    pose proof (Nat.mod_upper_bound (oracle pos) (length seq) H). lia.
Qed.

Lemma sample_terminal (fuel : nat) b side policy pos r :
  has_winner game_spec b = Some r ->
  sample (S fuel) b side policy pos = Return (r, None, pos).
Proof. intro H. simpl. rewrite H. reflexivity. Qed.

Lemma sample_no_moves (fuel : nat) b side policy pos :
  has_winner game_spec b = None ->
  available_moves game_spec b = [] ->
  sample (S fuel) b side policy pos = Return (0, None, pos).
Proof. intros H H0. simpl. rewrite H, H0. reflexivity. Qed.

Lemma sample_step (fuel : nat) b side policy pos :
  has_winner game_spec b = None ->
  available_moves game_spec b <> [] ->
  sample (S fuel) b side policy pos =
  ('(mv, pos1) <- pick policy b side (available_moves game_spec b) pos ;;
   '(r, _, pos2) <- sample fuel (apply_move game_spec b mv side) (- side) policy pos1 ;;
   Return (r, Some mv, pos2)).
Proof.
  intros H H0. simpl. rewrite H.
  destruct (available_moves game_spec b); [congruence | reflexivity].
Qed.


(** a random rollout of a game whose plays are finite returns, and it
    names a legal first move exactly when the position is unfinished
    and has moves *)
Lemma sample_total (depth : board -> nat) :
  bounded_play game_spec depth ->
  forall fuel b side pos,
    (depth b < fuel)%nat ->
    exists r m pos',
      sample fuel b side false pos = Return (r, m, pos') /\
      match m with
      | Some mv => has_winner game_spec b = None /\ In mv (available_moves game_spec b)
      | None => has_winner game_spec b <> None \/ available_moves game_spec b = []
      end.
Proof.
  intros Hd fuel. induction fuel as [| fuel IH]; intros b side pos Hlt; [lia |].
  destruct (has_winner game_spec b) as [r |] eqn:Hw.
  - exists r, None, pos. rewrite (sample_terminal _ _ _ _ _ _ Hw).
    split; [reflexivity | left; congruence].
  - destruct (available_moves game_spec b) as [| m0 ms] eqn:Hm.
    + exists 0, None, pos. rewrite (sample_no_moves _ _ _ _ _ Hw Hm).
      split; [reflexivity | right; reflexivity].
    + rewrite sample_step by (congruence). rewrite Hm.
      destruct (random_choice_in (m0 :: ms) pos) as [mv [Hc Hin]]; [congruence |].
      unfold select_move. rewrite Hc. simpl bind.
      destruct (IH (apply_move game_spec b mv side) (- side) (S pos)) as (r & m & pos' & Hs & _).
      { rewrite <- Hm in Hin. specialize (Hd b mv side Hw Hin). lia. }
      rewrite Hs. simpl. exists r, (Some mv), pos'.
      split; [reflexivity | split; [reflexivity | exact Hin]].
Qed.

(** C8: on a position that the game reports finished the sampler
    returns (result, None), and on an unfinished position without legal
    moves it returns (0, None), in both cases at once: one unit of fuel
    is enough and no random draw is consumed. Otherwise it returns the
    result of the recursive rollout paired with the move selected in
    this call, not with the move the recursive call reports; and in a
    game whose plays are finite the random rollout does return. *)
Theorem sample_returns_result_and_first_move :
  forall (fuel : nat) (b : board) (side : Z) (policy : bool) (pos : nat),
    (forall r, has_winner game_spec b = Some r ->
       sample 1 b side policy pos = Return (r, None, pos) /\
       sample (S fuel) b side policy pos = Return (r, None, pos)) /\
    (has_winner game_spec b = None -> available_moves game_spec b = [] ->
       sample 1 b side policy pos = Return (0, None, pos) /\
       sample (S fuel) b side policy pos = Return (0, None, pos)) /\
    (has_winner game_spec b = None -> available_moves game_spec b <> [] ->
       forall mv pos1 r next_move pos2,
         pick policy b side (available_moves game_spec b) pos = Return (mv, pos1) ->
         sample fuel (apply_move game_spec b mv side) (- side) policy pos1
           = Return (r, next_move, pos2) ->
         sample (S fuel) b side policy pos = Return (r, Some mv, pos2)) /\
    (forall depth, bounded_play game_spec depth -> (depth b < S fuel)%nat ->
       has_winner game_spec b = None -> available_moves game_spec b <> [] ->
       exists mv r next_move pos2,
         random_choice oracle (available_moves game_spec b) pos = Return (mv, S pos) /\
         In mv (available_moves game_spec b) /\
         sample fuel (apply_move game_spec b mv side) (- side) false (S pos)
           = Return (r, next_move, pos2) /\
         sample (S fuel) b side false pos = Return (r, Some mv, pos2)).
Proof.
  intros fuel b side policy pos. repeat split.
  - apply sample_terminal; assumption.
  - apply sample_terminal; assumption.
  - apply sample_no_moves; assumption.
  - apply sample_no_moves; assumption.
  - intros Hw Hm mv pos1 r nm pos2 Hp Hs.
    rewrite sample_step by assumption. rewrite Hp. simpl. rewrite Hs. reflexivity.
  - intros depth Hd Hlt Hw Hm.
    destruct (random_choice_in (available_moves game_spec b) pos Hm) as [mv [Hc Hin]].
    destruct (sample_total depth Hd fuel (apply_move game_spec b mv side) (- side) (S pos))
      as (r & nm & pos2 & Hs & _).
    { specialize (Hd b mv side Hw Hin). lia. }
    exists mv, r, nm, pos2. repeat split; try assumption.
    rewrite sample_step by assumption. unfold select_move. rewrite Hc. simpl.
    rewrite Hs. reflexivity.
Qed.

End SamplerFacts.

(** ** The flat search *)

Lemma py_div_nonzero (x : Q) (c : Z) :
  c <> 0 -> py_div x (inject_Z c) = Return (x / inject_Z c)%Q.
Proof.
  intro Hc. unfold py_div.
  destruct (Qeq_bool (inject_Z c) 0) eqn:E; [| reflexivity].
  apply Qeq_bool_iff in E. unfold Qeq in E. simpl in E. lia.
Qed.

Lemma Qltb_trans (a b c : Q) : Qltb b a = true -> Qltb c b = true -> Qltb c a = true.
Proof.
  unfold Qltb. rewrite !negb_true_iff. intros H1 H2.
  destruct (Qle_bool a c) eqn:E; [| reflexivity].
  apply Qle_bool_iff in E.
  assert (~ (a <= b)%Q) by (rewrite <- Qle_bool_iff; congruence).
  assert (~ (b <= c)%Q) by (rewrite <- Qle_bool_iff; congruence).
  exfalso. apply H. apply Qnot_le_lt in H0. apply Qlt_le_weak.
  eapply Qle_lt_trans; eassumption.
Qed.

Lemma Qltb_over (a b c : Q) : Qltb b a = true -> Qltb b c = false -> Qltb c a = true.
Proof.
  unfold Qltb. rewrite negb_true_iff, negb_false_iff, negb_true_iff. intros H1 H2.
  destruct (Qle_bool a c) eqn:E; [| reflexivity].
  apply Qle_bool_iff in E. apply Qle_bool_iff in H2.
  assert (Hab : (a <= b)%Q) by (eapply Qle_trans; eassumption).
  apply Qle_bool_iff in Hab. congruence.
Qed.

Lemma Zltb_trans (a b c : Z) : (a <? b) = true -> (b <? c) = true -> (a <? c) = true.
Proof. rewrite !Z.ltb_lt. lia. Qed.

Lemma Zltb_over (a b c : Z) : (a <? b) = true -> (c <? b) = false -> (a <? c) = true.
Proof. rewrite !Z.ltb_lt, Z.ltb_ge. lia. Qed.

Lemma counter_incr_item (d : counter) (k k0 : option Move) :
  dict_item OptMove_eq_dec 0 (counter_incr d k) k0 =
  if OptMove_eq_dec k0 k then dict_item OptMove_eq_dec 0 d k + 1
  else dict_item OptMove_eq_dec 0 d k0.
Proof.
  unfold counter_incr. destruct (OptMove_eq_dec k0 k) as [E | E].
  - subst. apply dict_item_set_same.
  - apply dict_item_set_other. exact E.
Qed.

Lemma counter_incr_values (d : counter) (k : option Move) :
  (forall k0 v, In (k0, v) d -> 1 <= v) ->
  forall k0 v, In (k0, v) (counter_incr d k) -> 1 <= v.
Proof.
  intros Hd k0 v Hin. unfold counter_incr in Hin.
  apply dict_in_set in Hin. destruct Hin as [[_ Hv] | Hin].
  - subst v. unfold dict_item.
    destruct (dict_get OptMove_eq_dec d k) as [n |] eqn:E; [| lia].
    apply dict_get_in in E. specialize (Hd _ _ E). lia.
  - eapply Hd; eassumption.
Qed.

Section FlatFacts.
Variable board : Type.
Variable game_spec : BaseGameSpec board.
Variable oracle : nat -> nat.
Variable network : nat -> board -> Z -> list Z.

Local Abbreviation sample := (_monte_carlo_sample board game_spec oracle network).
Local Abbreviation rollouts := (flat_rollouts board game_spec oracle network).
Local Abbreviation finish := (flat_finish board game_spec).
Local Abbreviation item := (dict_item OptMove_eq_dec 0).

Lemma flat_inv_init (P : option Move -> Prop) : flat_inv P flat_init.
Proof.
  unfold flat_inv, flat_init; simpl.
  repeat split; try constructor; try tauto; try discriminate.
Qed.

Lemma counter_incr_keys (d : counter) (k k0 : option Move) :
  In k0 (dict_keys (counter_incr d k)) <-> k0 = k \/ In k0 (dict_keys d).
Proof. unfold counter_incr. apply dict_keys_set. Qed.

(** one pass through the loop body keeps the invariant *)
Lemma flat_inv_step (P : option Move -> Prop) (st : flat_vars) (r side : Z)
    (m : option Move) :
  flat_inv P st -> P m ->
  flat_inv P {| move_wins := if r =? side then counter_incr (move_wins st) m
                             else move_wins st;
                move_samples := counter_incr (move_samples st) m;
                move := Some m |}.
Proof.
  intros (Hw & Hs & Hwv & Hsv & Hsub & HP & Hmv & Hne) Pm.
  unfold flat_inv; simpl.
  split; [| split; [| split; [| split; [| split; [| split; [| split]]]]]].
  - destruct (r =? side); [apply dict_set_NoDup |]; assumption.
  - apply dict_set_NoDup; assumption.
  - destruct (r =? side); [apply counter_incr_values |]; assumption.
  - apply counter_incr_values; assumption.
  - intros k Hk. apply counter_incr_keys.
    destruct (r =? side); [apply counter_incr_keys in Hk; destruct Hk |]; auto.
  - intros k Hk. apply counter_incr_keys in Hk. destruct Hk; [subst |]; auto.
  - intros mv Hmv'. inversion Hmv'. subst. apply counter_incr_keys. auto.
  - discriminate.
Qed.

Lemma flat_rollouts_inv (P : option Move -> Prop) fuel root side policy :
  (forall pos r m pos', sample fuel root side policy pos = Return (r, m, pos') -> P m) ->
  forall n st pos st' pos',
    flat_inv P st ->
    rollouts n fuel root side policy st pos = Return (st', pos') ->
    flat_inv P st' /\ (move st <> None \/ (0 < n)%nat -> move st' <> None).
Proof.
  intros HP n. induction n as [| n IH]; intros st pos st' pos' Hinv Hrun; simpl in Hrun.
  - inversion Hrun. subst. split; [assumption | intros [H | H]; [exact H | lia]].
  - destruct (sample fuel root side policy pos) as [[[r m] pos1] | |] eqn:Es;
      simpl in Hrun; try discriminate.
    apply IH in Hrun.
    + destruct Hrun as [Hinv' Hmv]. split; [exact Hinv' | intros _].
      apply Hmv. left. simpl. discriminate.
    + apply flat_inv_step; [exact Hinv | eapply HP; exact Es].
Qed.


(** with no recorded win the chosen move is the first least-sampled one *)
Lemma flat_best_move_fallback (P : option Move -> Prop) (st : flat_vars) :
  flat_inv P st -> move_wins st = [] -> move_samples st <> [] ->
  exists m, flat_best_move st = Return m /\
            first_best (fun new best => new <? best) (move_samples st) m.
Proof.
  intros (Hw & Hs & Hwv & Hsv & Hsub & HP & Hmv & Hne) Hempty Hsam.
  unfold flat_best_move. rewrite Hempty. simpl. unfold py_min_Z.
  pose proof (with_keys_get OptMove_eq_dec (move_samples st)
                (fun n => Return n) (fun n => n) Hs (move_samples st)) as Hk.
  simpl in Hk. rewrite Hk by (intros; split; [assumption | reflexivity]).
  simpl. clear Hk.
  replace (map (fun kv : option Move * Z => (fst kv, snd kv)) (move_samples st))
    with (move_samples st)
    by (clear; induction (move_samples st) as [| [k v] l IH]; simpl; congruence).
  destruct (py_select_first (X := option Move) (fun new best => new <? best)
              Zltb_trans Zltb_over (move_samples st) Hsam)
    as (m & pre & w & post & Hsel & Heq & H1 & H2).
  exists m. split; [exact Hsel |]. exists pre, w, post. auto.
Qed.

(** with a recorded win the chosen move is the first one whose win
    count over the sample count of the last rollout's move is largest *)
Lemma flat_best_move_ranked (P : option Move -> Prop) (st : flat_vars) :
  flat_inv P st -> move_wins st <> [] ->
  exists m last,
    move st = Some last /\
    flat_best_move st = Return m /\
    first_best (fun new best => Qltb best new)
      (map (fun kv => (fst kv, (inject_Z (snd kv) / inject_Z (item (move_samples st) last))%Q))
           (move_wins st)) m.
Proof.
  intros (Hw & Hs & Hwv & Hsv & Hsub & HP & Hmv & Hne) Hwins.
  assert (Hsam : move_samples st <> []).
  { destruct (move_wins st) as [| [k v] l] eqn:E; [congruence |].
    intro H0. specialize (Hsub k (or_introl eq_refl)). rewrite H0 in Hsub. exact Hsub. }
  destruct (move st) as [last |] eqn:El; [| exfalso; apply (Hne Hsam); reflexivity].
  assert (Hc : item (move_samples st) last <> 0).
  { specialize (Hmv last eq_refl). unfold dict_item.
    destruct (dict_get OptMove_eq_dec (move_samples st) last) as [n |] eqn:E.
    - apply dict_get_in in E. specialize (Hsv _ _ E). lia.
    - apply dict_get_none in E. contradiction. }
  unfold flat_best_move. rewrite El.
  destruct (length (move_wins st) =? 0)%nat eqn:Elen.
  { apply Nat.eqb_eq in Elen. destruct (move_wins st); [congruence | discriminate]. }
  unfold py_max.
  pose proof (with_keys_get OptMove_eq_dec (move_wins st)
                (fun w => py_div (inject_Z w) (inject_Z (item (move_samples st) last)))
                (fun w => (inject_Z w / inject_Z (item (move_samples st) last))%Q)
                Hw (move_wins st)) as Hk.
  simpl in Hk. rewrite Hk by (intros; split; [assumption | apply py_div_nonzero, Hc]).
  simpl. clear Hk.
  destruct (py_select_first (X := option Move) (fun new best => Qltb best new)
              Qltb_trans Qltb_over
              (map (fun kv : option Move * Z =>
                      (fst kv, (inject_Z (snd kv) / inject_Z (item (move_samples st) last))%Q))
                   (move_wins st)))
    as (m & pre & w & post & Hsel & Heq & H1 & H2).
  { destruct (move_wins st); [congruence | discriminate]. }
  exists m, last. split; [reflexivity |]. split; [exact Hsel |].
  exists pre, w, post. auto.
Qed.

Lemma first_best_in {X W : Type} (better : W -> W -> bool) (d : list (X * W)) m :
  first_best better d m -> In m (map fst d).
Proof.
  intros (pre & w & post & Heq & _). subst d.
  rewrite map_app. apply in_or_app. right. left. reflexivity.
Qed.

(** after at least one rollout the plain search returns the chosen
    move and its wins over its samples *)
Lemma flat_finish_returns (P : option Move -> Prop) (st : flat_vars) :
  flat_inv P st -> move_samples st <> [] ->
  exists m,
    flat_best_move st = Return m /\
    In m (dict_keys (move_samples st)) /\
    (move_wins st <> [] -> In m (dict_keys (move_wins st))) /\
    finish false st =
      Return ((inject_Z (item (move_wins st) m) / inject_Z (item (move_samples st) m))%Q,
              inl m).
Proof.
  intros Hinv Hsam.
  assert (Hex : exists m, flat_best_move st = Return m /\
                          In m (dict_keys (move_samples st)) /\
                          (move_wins st <> [] -> In m (dict_keys (move_wins st)))).
  { destruct (move_wins st) as [| kv l] eqn:E.
    - destruct (flat_best_move_fallback P st Hinv E Hsam) as (m & Hb & Hf).
      exists m. split; [exact Hb |]. split; [| congruence].
      apply first_best_in in Hf. exact Hf.
    - destruct (flat_best_move_ranked P st Hinv) as (m & last & _ & Hb & Hf);
        [congruence |].
      apply first_best_in in Hf. rewrite map_map in Hf. simpl in Hf.
      fold (dict_keys (move_wins st)) in Hf.
      destruct Hinv as (_ & _ & _ & _ & Hsub & _).
      exists m. split; [exact Hb |]. rewrite <- E. auto. }
  destruct Hex as (m & Hb & Hin & Hw). exists m.
  split; [exact Hb |]. split; [exact Hin |]. split; [exact Hw |].
  unfold flat_finish. rewrite Hb. simpl.
  rewrite py_div_nonzero; [reflexivity |].
  destruct Hinv as (_ & Hs & _ & Hsv & _).
  unfold dict_item.
  destruct (dict_get OptMove_eq_dec (move_samples st) m) as [n |] eqn:E.
  - apply dict_get_in in E. specialize (Hsv _ _ E). lia.
  - apply dict_get_none in E. contradiction.
Qed.

Lemma first_best_least (P : option Move -> Prop) (st : flat_vars) m :
  flat_inv P st ->
  first_best (fun new best => new <? best) (move_samples st) m ->
  forall m', In m' (dict_keys (move_samples st)) ->
             item (move_samples st) m <= item (move_samples st) m'.
Proof.
  intros (_ & Hs & _) (pre & w & post & Heq & H1 & H2) m' Hin.
  assert (Hm : item (move_samples st) m = w).
  { unfold dict_item. rewrite (dict_in_get _ _ m w Hs); [reflexivity |].
    rewrite Heq. apply in_or_app. right. left. reflexivity. }
  unfold dict_keys in Hin. apply in_map_iff in Hin. destruct Hin as ([k v] & Hk & Hin).
  simpl in Hk. subst k.
  assert (Hm' : item (move_samples st) m' = v).
  { unfold dict_item. rewrite (dict_in_get _ _ m' v Hs Hin). reflexivity. }
  rewrite Hm, Hm'. rewrite Heq in Hin. apply in_app_or in Hin.
  destruct Hin as [Hin | [Hin | Hin]].
  - specialize (H1 _ Hin). simpl in H1. apply Z.ltb_lt in H1. lia.
  - inversion Hin. lia.
  - specialize (H2 _ Hin). simpl in H2. apply Z.ltb_ge in H2. lia.
Qed.

Lemma counter_incr_nonempty (d : counter) (k : option Move) : counter_incr d k <> [].
Proof.
  unfold counter_incr. destruct d as [| [k' v'] d]; simpl; [discriminate |].
  destruct (OptMove_eq_dec k k'); discriminate.
Qed.

Lemma flat_rollouts_nonempty fuel root side policy :
  forall n st pos st' pos',
    rollouts n fuel root side policy st pos = Return (st', pos') ->
    move_samples st <> [] \/ (0 < n)%nat -> move_samples st' <> [].
Proof.
  induction n as [| n IH]; intros st pos st' pos' Hrun Hn; simpl in Hrun.
  - inversion Hrun. subst. destruct Hn; [assumption | lia].
  - destruct (sample fuel root side policy pos) as [[[r m] pos1] | |] eqn:Es;
      simpl in Hrun; try discriminate.
    apply IH in Hrun; [exact Hrun |]. left. simpl. apply counter_incr_nonempty.
Qed.

(** C7: when the rollouts of the flat search recorded no win, the move
    it returns is the first least-sampled one among the sampled moves
    and the confidence it returns is 0; with at least one sample the
    plain search does return, and without any sample [min] raises
    ValueError. The fallback branch is taken exactly when every move
    has zero wins, and otherwise the selected move is one with a
    recorded win. *)
Theorem flat_fallback_least_sampled :
  forall fuel root side N policy pos st pos',
    rollouts (Z.to_nat N) fuel root side policy flat_init pos = Return (st, pos') ->
    ((length (move_wins st) =? 0)%nat = true <-> forall m, item (move_wins st) m = 0) /\
    (move_wins st = [] ->
       (forall c label,
           monte_carlo_tree_search board game_spec oracle network
             fuel root side N policy pos = Return (c, label) ->
           (c == 0)%Q /\
           exists m,
             flat_best_move st = Return m /\
             first_best (fun new best => new <? best) (move_samples st) m /\
             (forall m', In m' (dict_keys (move_samples st)) ->
                         item (move_samples st) m <= item (move_samples st) m') /\
             (policy = false -> label = inl m)) /\
       (1 <= N -> policy = false ->
        exists c m,
          monte_carlo_tree_search board game_spec oracle network
            fuel root side N policy pos = Return (c, inl m)) /\
       (N <= 0 ->
        monte_carlo_tree_search board game_spec oracle network
          fuel root side N policy pos = Raise ValueError)) /\
    (move_wins st <> [] ->
       exists m, flat_best_move st = Return m /\ 1 <= item (move_wins st) m).
Proof.
  intros fuel root side N policy pos st pos' Hrun.
  assert (Hinv : flat_inv (fun _ => True) st).
  { eapply (flat_rollouts_inv (fun _ => True)); [auto | apply flat_inv_init | exact Hrun]. }
  assert (Hsearch : monte_carlo_tree_search board game_spec oracle network
                      fuel root side N policy pos = finish policy st).
  { unfold monte_carlo_tree_search. rewrite Hrun. reflexivity. }
  split; [| split].
  - destruct (move_wins st) as [| [k v] l] eqn:E; simpl.
    + split; [reflexivity | tauto].
    + split; [discriminate |]. intro H. exfalso.
      destruct Hinv as (_ & _ & Hwv & _). rewrite E in Hwv.
      specialize (Hwv k v (or_introl eq_refl)). specialize (H k).
      unfold dict_item in H. simpl in H.
      destruct (OptMove_eq_dec k k); [lia | congruence].
  - intro Hempty. rewrite Hsearch.
    destruct (Z_le_gt_dec N 0) as [HN | HN].
    + (* no rollout at all *)
      assert (Hst : st = flat_init).
      { replace (Z.to_nat N) with 0%nat in Hrun by lia. simpl in Hrun. congruence. }
      assert (Hfin : finish policy st = Raise ValueError) by (subst st; reflexivity).
      rewrite Hfin. split; [intros c label H; discriminate |].
      split; [intro; lia | reflexivity].
    + assert (Hsam : move_samples st <> []).
      { eapply flat_rollouts_nonempty; [exact Hrun | right; lia]. }
      destruct (flat_best_move_fallback _ st Hinv Hempty Hsam) as (m & Hb & Hf).
      assert (Hnz : item (move_samples st) m <> 0).
      { destruct Hinv as (_ & Hs & _ & Hsv & _).
        apply first_best_in in Hf. unfold dict_item.
        destruct (dict_get OptMove_eq_dec (move_samples st) m) as [n |] eqn:E.
        - apply dict_get_in in E. specialize (Hsv _ _ E). lia.
        - apply dict_get_none in E. contradiction. }
      assert (Hzero : item (move_wins st) m = 0) by (rewrite Hempty; reflexivity).
      unfold flat_finish. rewrite Hb. cbn [bind]. rewrite Hzero.
      rewrite py_div_nonzero by exact Hnz.
      split; [| split; [| intro; lia]].
      * intros c label Hret.
        assert (Hc : (c == 0)%Q /\ (policy = false -> label = inl m)).
        { destruct policy; cbn [bind] in Hret.
          - destruct (one_hot_81 (tuple_move_to_flat game_spec m)); cbn [bind] in Hret;
              try discriminate.
            inversion Hret. split; [unfold Qdiv; apply Qmult_0_l | discriminate].
          - inversion Hret. split; [unfold Qdiv; apply Qmult_0_l | reflexivity]. }
        split; [apply Hc |]. exists m. split; [reflexivity |]. split; [exact Hf |].
        split; [eapply first_best_least; eassumption | apply Hc].
      * intros _ Hp. subst policy. cbn [bind]. eauto.
  - intro Hne.
    assert (Hsam : move_samples st <> []).
    { destruct Hinv as (_ & _ & _ & _ & Hsub & _).
      destruct (move_wins st) as [| [k v] l]; [congruence |].
      intro H0. specialize (Hsub k (or_introl eq_refl)). rewrite H0 in Hsub. exact Hsub. }
    destruct (flat_finish_returns _ st Hinv Hsam) as (m & Hb & _ & Hw & _).
    exists m. split; [exact Hb |]. specialize (Hw Hne).
    destruct Hinv as (Hnd & _ & Hwv & _).
    unfold dict_item.
    destruct (dict_get OptMove_eq_dec (move_wins st) m) as [n |] eqn:E.
    + apply dict_get_in in E. eapply Hwv; eassumption.
    + apply dict_get_none in E. contradiction.
Qed.

Lemma counter_incr_only_none (m : Z) :
  0 <= m -> counter_incr (only_none m) None = only_none (m + 1).
Proof.
  intro Hm. unfold only_none.
  destruct (m =? 0) eqn:E; destruct (m + 1 =? 0) eqn:E1; try lia; simpl.
  - apply Z.eqb_eq in E. subst. reflexivity.
  - unfold counter_incr, dict_item. simpl.
    destruct (OptMove_eq_dec None None); [reflexivity | congruence].
Qed.

(** rollouts from a finished root only ever touch the key [None] *)
Lemma flat_rollouts_finished (fuel : nat) root side r :
  has_winner game_spec root = Some r ->
  forall n m mv pos,
    0 <= m ->
    rollouts n (S fuel) root side false
      {| move_wins := if r =? side then only_none m else [];
         move_samples := only_none m; move := mv |} pos
    = Return ({| move_wins := if r =? side then only_none (m + Z.of_nat n) else [];
                 move_samples := only_none (m + Z.of_nat n);
                 move := match n with O => mv | S _ => Some None end |}, pos).
Proof.
  intros Hw n. induction n as [| n IH]; intros m mv pos Hm.
  - simpl. rewrite Z.add_0_r. reflexivity.
  - cbn [flat_rollouts]. rewrite (sample_terminal _ _ _ _ fuel root side false pos r Hw).
    cbn [bind move_wins move_samples].
    rewrite counter_incr_only_none by exact Hm.
    replace (if r =? side then counter_incr (if r =? side then only_none m else []) None
             else if r =? side then only_none m else [])
      with (if r =? side then only_none (m + 1) else [] : counter)
      by (destruct (r =? side); [rewrite counter_incr_only_none by exact Hm |]; reflexivity).
    rewrite IH by lia.
    replace (m + 1 + Z.of_nat n) with (m + Z.of_nat (S n)) by lia.
    destruct n; reflexivity.
Qed.

(** C10: on a root that the game reports finished, with at least one
    sample, every rollout returns (result, None), the statistics are
    keyed by None alone, and the plain flat search returns (k/N, None),
    where k counts the rollouts whose result equals side: N when the
    result is side and 0 otherwise. The move returned is None. *)
Theorem flat_search_on_finished_root :
  forall (fuel : nat) root side r N pos,
    has_winner game_spec root = Some r ->
    1 <= N ->
    (forall p, sample (S fuel) root side false p = Return (r, None, p)) /\
    rollouts (Z.to_nat N) (S fuel) root side false flat_init pos =
      Return ({| move_wins := if r =? side then [(None, N)] else [];
                 move_samples := [(None, N)];
                 move := Some None |}, pos) /\
    monte_carlo_tree_search board game_spec oracle network
      (S fuel) root side N false pos =
      Return ((inject_Z (if r =? side then N else 0) / inject_Z N)%Q, inl None).
Proof.
  intros fuel root side r N pos Hw HN.
  assert (Hrun : rollouts (Z.to_nat N) (S fuel) root side false flat_init pos =
      Return ({| move_wins := if r =? side then [(None, N)] else [];
                 move_samples := [(None, N)];
                 move := Some None |}, pos)).
  { pose proof (flat_rollouts_finished fuel root side r Hw (Z.to_nat N) 0 None pos
                  (Z.le_refl 0)) as H.
    rewrite Z.add_0_l, Z2Nat.id in H by lia.
    unfold only_none in H. change (0 =? 0) with true in H. cbv iota in H.
    destruct (N =? 0) eqn:E; [lia |].
    destruct (Z.to_nat N) eqn:E1; [lia |].
    unfold flat_init. destruct (r =? side); exact H. }
  split; [intro p; apply sample_terminal; exact Hw |].
  split; [exact Hrun |].
  unfold monte_carlo_tree_search. rewrite Hrun. cbn [bind].
  unfold flat_finish, flat_best_move. cbn [move_wins move_samples move].
  destruct (r =? side); simpl.
  - unfold py_max. simpl. destruct (OptMove_eq_dec None None); [| congruence].
    unfold dict_item. simpl. destruct (OptMove_eq_dec None None); [| congruence].
    rewrite py_div_nonzero by lia. simpl.
    rewrite py_div_nonzero by lia. reflexivity.
  - unfold py_min_Z. simpl. destruct (OptMove_eq_dec None None); [| congruence].
    simpl. unfold dict_item. simpl. destruct (OptMove_eq_dec None None); [| congruence].
    rewrite py_div_nonzero by lia. reflexivity.
Qed.

End FlatFacts.

(** ** The tree search *)

Lemma with_keys_map {X W : Type} (key : X -> outcome W) (g : X -> W) (l : list X) :
  (forall x, In x l -> key x = Return (g x)) ->
  with_keys key l = Return (map (fun x => (x, g x)) l).
Proof.
  induction l as [| x l IH]; intro H; simpl; [reflexivity |].
  rewrite (H x (or_introl eq_refl)). simpl.
  rewrite IH by (intros; apply H; right; assumption). reflexivity.
Qed.

Section TreeFacts.
Variable board : Type.
Variable board_eq_dec : forall x y : board, {x = y} + {x <> y}.
Variable game_spec : BaseGameSpec board.
Variable oracle : nat -> nat.

Local Abbreviation titem := (table_item board board_eq_dec).
Local Abbreviation tadd := (table_add board board_eq_dec).
Local Abbreviation states_of := (move_states_of board game_spec).
Local Abbreviation descend := (uct_descend board board_eq_dec game_spec oracle).
Local Abbreviation iteration := (uct_iteration board board_eq_dec game_spec oracle).
Local Abbreviation iterations := (uct_iterations board board_eq_dec game_spec oracle).
Local Abbreviation bstep := (backup_step board board_eq_dec).
Local Abbreviation bkup := (backup board board_eq_dec).
Local Abbreviation bounded := (scores_bounded board_eq_dec).

(** *** The dictionary of child states *)

Lemma move_states_fold (b : board) (side : Z) (l : list Move) :
  forall acc : dict Move board,
    NoDup (dict_keys acc) ->
    (forall mv s, In (mv, s) acc -> s = apply_move game_spec b mv side) ->
    let ms := fold_left
                (fun d mv => dict_set Move_eq_dec d mv (apply_move game_spec b mv side))
                l acc in
    NoDup (dict_keys ms) /\
    (forall mv, In mv (dict_keys ms) <-> In mv (dict_keys acc) \/ In mv l) /\
    (forall mv s, In (mv, s) ms -> s = apply_move game_spec b mv side).
Proof.
  induction l as [| m l IH]; intros acc Hnd Hval; simpl.
  - split; [assumption |]. split; [tauto | assumption].
  - destruct (IH (dict_set Move_eq_dec acc m (apply_move game_spec b m side)))
      as (H1 & H2 & H3).
    + apply dict_set_NoDup. exact Hnd.
    + intros mv s Hin. apply dict_in_set in Hin.
      destruct Hin as [[-> ->] | Hin]; [reflexivity | apply Hval, Hin].
    + split; [exact H1 |]. split; [| exact H3].
      intro mv. rewrite H2, dict_keys_set. intuition congruence.
Qed.

Lemma move_states_spec (b : board) (side : Z) :
  NoDup (dict_keys (states_of b side)) /\
  (forall mv, In mv (dict_keys (states_of b side)) <-> In mv (available_moves game_spec b)) /\
  (forall mv s, In (mv, s) (states_of b side) -> s = apply_move game_spec b mv side).
Proof.
  destruct (move_states_fold b side (available_moves game_spec b) [])
    as (H1 & H2 & H3); try (simpl; tauto); [constructor |].
  split; [exact H1 |]. split; [| exact H3].
  intro mv. rewrite (H2 mv). simpl. tauto.
Qed.

Lemma move_states_get (b : board) (side : Z) (mv : Move) :
  In mv (dict_keys (states_of b side)) ->
  dict_get Move_eq_dec (states_of b side) mv = Some (apply_move game_spec b mv side).
Proof.
  intro Hin. destruct (move_states_spec b side) as (_ & _ & H3).
  destruct (dict_get Move_eq_dec (states_of b side) mv) as [s |] eqn:E.
  - apply dict_get_in in E. rewrite (H3 _ _ E). reflexivity.
  - apply dict_get_none in E. contradiction.
Qed.

Lemma move_states_nonempty (b : board) (side : Z) :
  available_moves game_spec b <> [] -> states_of b side <> [].
Proof.
  intros Hne Hms. destruct (move_states_spec b side) as (_ & H2 & _).
  destruct (available_moves game_spec b) as [| m l]; [congruence |].
  specialize (proj2 (H2 m) (or_introl eq_refl)). rewrite Hms. simpl. tauto.
Qed.

(** *** Tables keyed by board states *)

Lemma table_add_item (d : table board) k v k0 :
  titem (tadd d k v) k0 =
  if pykey_eq_dec board board_eq_dec k0 k then (titem d k + v)%Q else titem d k0.
Proof.
  unfold table_add, table_item.
  destruct (pykey_eq_dec board board_eq_dec k0 k) as [E | E].
  - subst. apply dict_item_set_same.
  - apply dict_item_set_other. exact E.
Qed.

Lemma table_add_board_keys (d : table board) (b : board) v :
  board_keys_only d -> board_keys_only (tadd d (KBoard b) v).
Proof.
  intros H z Hin. unfold table_add in Hin. apply dict_keys_set in Hin.
  destruct Hin as [Hin | Hin]; [discriminate | exact (H z Hin)].
Qed.

Lemma backup_board_keys (path : list (board * Z)) :
  forall v, board_keys_only (state_results v) -> board_keys_only (state_samples v) ->
            board_keys_only (state_results (bkup path v)) /\
            board_keys_only (state_samples (bkup path v)).
Proof.
  induction path as [| [b s] path IH]; intros v Hr Hs; simpl; [auto |].
  apply IH; simpl; apply table_add_board_keys; assumption.
Qed.

(** the test of the descent never succeeds on a table keyed by boards *)
Lemma all_in_state_samples_false (samples : table board) (ms : dict Move board) :
  board_keys_only samples -> ms <> [] ->
  all_in_state_samples board board_eq_dec samples ms = false.
Proof.
  intros Hk Hne. destruct ms as [| [mv s] ms]; [congruence |].
  unfold all_in_state_samples. simpl.
  destruct (dict_contains (pykey_eq_dec board board_eq_dec) samples (KInt (snd mv))) eqn:E.
  - apply dict_contains_keys in E. exfalso. exact (Hk _ E).
  - reflexivity.
Qed.

Lemma descent_move_random (samples : table board) (ms : dict Move board) (pos : nat) :
  board_keys_only samples -> ms <> [] ->
  descent_move board board_eq_dec oracle samples ms pos
  = random_choice oracle (dict_keys ms) pos.
Proof.
  intros Hk Hne. unfold descent_move.
  rewrite all_in_state_samples_false by assumption. reflexivity.
Qed.

(** *** The descent *)

Lemma is_side_opp (s : Z) : is_side s -> is_side (- s).
Proof. unfold is_side. lia. Qed.

Lemma descend_S fuel samples b cs first path pos :
  descend (S fuel) samples b cs first path pos =
  match states_of b cs with
  | [] => Return (0, path, pos)
  | _ :: _ =>
      '(mv, pos1) <- descent_move board board_eq_dec oracle samples (states_of b cs) pos ;;
      match dict_get Move_eq_dec (states_of b cs) mv with
      | None => Raise KeyError
      | Some nb =>
          match has_winner game_spec nb with
          | Some res =>
              Return (res, if first then path ++ [(nb, cs)] else path, pos1)
          | None =>
              descend fuel samples nb (- cs)
                (if first
                 then dict_contains (pykey_eq_dec board board_eq_dec) samples (KBoard nb)
                 else false)
                (if first then path ++ [(nb, cs)] else path) pos1
          end
      end
  end.
Proof. simpl. destruct (states_of b cs); reflexivity. Qed.

Lemma descend_range :
  results_in_range game_spec ->
  forall fuel samples b cs first path pos r path' pos',
    descend fuel samples b cs first path pos = Return (r, path', pos') ->
    is_side cs ->
    Forall (fun e => is_side (snd e)) path ->
    -1 <= r <= 1 /\ Forall (fun e => is_side (snd e)) path'.
Proof.
  intros Hrange fuel. induction fuel as [| fuel IH];
    intros samples b cs first path pos r path' pos' Hrun Hcs Hpath; [discriminate |].
  rewrite descend_S in Hrun.
  destruct (states_of b cs) as [| kv ms] eqn:Ems.
  - inversion Hrun. subst. split; [lia | assumption].
  - destruct (descent_move board board_eq_dec oracle samples (kv :: ms) pos)
      as [[mv pos1] | |]; cbn [bind] in Hrun; try discriminate.
    destruct (dict_get Move_eq_dec (kv :: ms) mv) as [nb |]; [| discriminate].
    assert (Hpath1 : Forall (fun e : board * Z => is_side (snd e))
                       (if first then path ++ [(nb, cs)] else path)).
    { destruct first; [| assumption].
      apply Forall_app. split; [assumption | constructor; [exact Hcs | constructor]]. }
    destruct (has_winner game_spec nb) as [res |] eqn:Hw.
    + inversion Hrun. subst. split; [eapply Hrange; eassumption | assumption].
    + eapply IH; [exact Hrun | apply is_side_opp, Hcs | exact Hpath1].
Qed.

Lemma descend_total (depth : board -> nat) (samples : table board) :
  bounded_play game_spec depth ->
  board_keys_only samples ->
  forall fuel b cs first path pos,
    has_winner game_spec b = None ->
    (depth b < fuel)%nat ->
    exists r path' pos', descend fuel samples b cs first path pos = Return (r, path', pos').
Proof.
  intros Hd Hk fuel. induction fuel as [| fuel IH];
    intros b cs first path pos Hw Hlt; [lia |].
  rewrite descend_S.
  destruct (states_of b cs) as [| kv ms] eqn:Ems; [eauto |].
  rewrite descent_move_random by (assumption || discriminate).
  destruct (random_choice_in oracle (dict_keys (kv :: ms)) pos) as (mv & Hc & Hin);
    [discriminate |].
  rewrite Hc. cbn [bind]. rewrite <- Ems in Hin |- *.
  rewrite (move_states_get b cs mv Hin).
  destruct (has_winner game_spec (apply_move game_spec b mv cs)) eqn:Hw'; [eauto |].
  apply IH; [exact Hw' |].
  destruct (move_states_spec b cs) as (_ & H2 & _).
  apply H2 in Hin. specialize (Hd b mv cs Hw Hin). lia.
Qed.

(** *** The backup *)

Lemma normalise_range (r : Q) (s : Z) :
  (-1 <= r <= 1)%Q -> is_side s -> (0 <= r * inject_Z s / 2 + (1 # 2) <= 1)%Q.
Proof.
  intros Hr [Hs | Hs]; subst s.
  - assert (E : (r * inject_Z 1 / 2 == r * (1 # 2))%Q) by (change (inject_Z 1) with 1%Q; field).
    rewrite E. Lqa.lra.
  - assert (E : (r * inject_Z (-1) / 2 == - r * (1 # 2))%Q)
      by (change (inject_Z (-1)) with (-1)%Q; field).
    rewrite E. Lqa.lra.
Qed.

Lemma backup_step_range (v : backup_vars board) (b : board) (s : Z) :
  (-1 <= result v <= 1)%Q -> is_side s ->
  (0 <= result (bstep v (b, s)) <= 1)%Q.
Proof. intros Hr Hs. simpl. apply normalise_range; assumption. Qed.

Lemma backup_step_adds (v : backup_vars board) (b : board) (s : Z) :
  (titem (state_results (bstep v (b, s))) (KBoard b)
   == titem (state_results v) (KBoard b) + result (bstep v (b, s)))%Q /\
  (titem (state_samples (bstep v (b, s))) (KBoard b)
   == titem (state_samples v) (KBoard b) + 1)%Q /\
  (result (bstep v (b, s)) == result v * inject_Z s / 2 + (1 # 2))%Q.
Proof.
  simpl. rewrite !table_add_item.
  destruct (pykey_eq_dec board board_eq_dec (KBoard b) (KBoard b)); [| congruence].
  repeat split; reflexivity.
Qed.

Lemma backup_step_bounded (v : backup_vars board) (b : board) (s : Z) :
  (-1 <= result v <= 1)%Q -> is_side s ->
  bounded (state_results v) (state_samples v) ->
  bounded (state_results (bstep v (b, s))) (state_samples (bstep v (b, s))).
Proof.
  intros Hr Hs Hb k.
  pose proof (normalise_range (result v) s Hr Hs) as Hr'.
  simpl. rewrite !table_add_item. specialize (Hb k).
  destruct (pykey_eq_dec board board_eq_dec k (KBoard b)) as [E | E].
  - subst k. set (r' := (result v * inject_Z s / 2 + (1 # 2))%Q) in *. Lqa.lra.
  - exact Hb.
Qed.

Lemma backup_bounded (path : list (board * Z)) :
  forall v,
    (-1 <= result v <= 1)%Q ->
    Forall (fun e => is_side (snd e)) path ->
    (-1 <= result (bkup path v) <= 1)%Q /\
    (bounded (state_results v) (state_samples v) ->
     bounded (state_results (bkup path v)) (state_samples (bkup path v))).
Proof.
  induction path as [| [b s] path IH]; intros v Hr Hp; simpl; [tauto |].
  inversion Hp as [| ? ? Hs Hp']. subst. simpl in Hs.
  pose proof (backup_step_range v b s Hr Hs) as Hr'.
  destruct (IH (bstep v (b, s))) as [H1 H2]; [Lqa.lra | exact Hp' |].
  split; [exact H1 |]. intro Hb. apply H2.
  apply backup_step_bounded; assumption.
Qed.

Lemma inject_Z_range (r : Z) : -1 <= r <= 1 -> (-1 <= inject_Z r <= 1)%Q.
Proof.
  intros [H1 H2]. split.
  - change (-1)%Q with (inject_Z (-1)). rewrite <- Zle_Qle. exact H1.
  - change 1%Q with (inject_Z 1). rewrite <- Zle_Qle. exact H2.
Qed.

Lemma iterations_bounded :
  results_in_range game_spec ->
  forall side, is_side side ->
  forall n fuel root results samples pos results' samples' pos',
    bounded results samples ->
    iterations n fuel root side results samples pos = Return (results', samples', pos') ->
    bounded results' samples'.
Proof.
  intros Hrange side Hside n. induction n as [| n IH];
    intros fuel root results samples pos results' samples' pos' Hb Hrun; simpl in Hrun.
  - inversion Hrun. subst. exact Hb.
  - unfold uct_iteration in Hrun.
    destruct (descend fuel samples root side true [] pos) as [[[res path] pos1] | |] eqn:Ed;
      simpl in Hrun; try discriminate.
    destruct (descend_range Hrange _ _ _ _ _ _ _ _ _ _ Ed Hside (Forall_nil _))
      as [Hres Hpath].
    eapply IH; [| exact Hrun].
    apply backup_bounded; [simpl; apply inject_Z_range, Hres | exact Hpath | exact Hb].
Qed.

Lemma bounded_empty : bounded [] [].
Proof. intro k. unfold table_item, dict_item. simpl. Lqa.lra. Qed.

Lemma Forall_firstn {X : Type} (P : X -> Prop) (l : list X) (i : nat) :
  Forall P l -> Forall P (firstn i l).
Proof.
  intro H. rewrite <- (firstn_skipn i l) in H. apply Forall_app in H. tauto.
Qed.

(** C6: every value added to state_results lies in [0,1], and
    0 <= state_results[key] <= state_samples[key] holds for every key
    after each step of a backup and after any number of iterations.
    The game's results are +1, -1 or 0 and the side is +1 or -1. The
    value added at a path entry is [result] after the step. *)
Theorem uct_scores_stay_normalised :
  results_in_range game_spec ->
  forall side, is_side side ->
  (forall fuel root results samples pos res path pos1,
      descend fuel samples root side true [] pos = Return (res, path, pos1) ->
      forall i e, nth_error path i = Some e ->
        let v := bkup (firstn i path)
                   {| result := inject_Z res; state_results := results;
                      state_samples := samples |} in
        (0 <= result (bstep v e) <= 1)%Q /\
        (titem (state_results (bstep v e)) (KBoard (fst e))
         == titem (state_results v) (KBoard (fst e)) + result (bstep v e))%Q /\
        (bounded results samples ->
         bounded (state_results (bstep v e)) (state_samples (bstep v e)))) /\
  (forall n fuel root pos results samples pos',
      iterations n fuel root side [] [] pos = Return (results, samples, pos') ->
      bounded results samples).
Proof.
  intros Hrange side Hside. split.
  - intros fuel root results samples pos res path pos1 Hd i [b s] Hnth v.
    destruct (descend_range Hrange _ _ _ _ _ _ _ _ _ _ Hd Hside (Forall_nil _))
      as [Hres Hpath].
    assert (Hs : is_side s).
    { rewrite Forall_forall in Hpath. apply (Hpath (b, s)).
      eapply nth_error_In. exact Hnth. }
    destruct (backup_bounded (firstn i path)
                {| result := inject_Z res; state_results := results;
                   state_samples := samples |}) as [Hr Hb].
    + simpl. apply inject_Z_range, Hres.
    + apply Forall_firstn, Hpath.
    + fold v in Hr, Hb. split; [apply backup_step_range; assumption |].
      split; [apply backup_step_adds |].
      intro H0. apply backup_step_bounded; [assumption | assumption | apply Hb, H0].
  - intros n fuel root pos results samples pos' Hrun.
    eapply iterations_bounded; [exact Hrange | exact Hside | apply bounded_empty | exact Hrun].
Qed.

(** *** Termination and the final selection *)

Lemma board_keys_empty : board_keys_only (@nil (pykey board * Q)).
Proof. intros z H. exact H. Qed.

Lemma iterations_total (depth : board -> nat) fuel root side :
  bounded_play game_spec depth ->
  has_winner game_spec root = None ->
  (depth root < fuel)%nat ->
  forall n results samples pos,
    board_keys_only results -> board_keys_only samples ->
    exists results' samples' pos',
      iterations n fuel root side results samples pos = Return (results', samples', pos').
Proof.
  intros Hd Hw Hlt n. induction n as [| n IH]; intros results samples pos Hr Hs; simpl.
  - eauto.
  - unfold uct_iteration.
    destruct (descend_total depth samples Hd Hs fuel root side true [] pos Hw Hlt)
      as (res & path & pos1 & E).
    rewrite E. cbn [bind].
    destruct (backup_board_keys path
                {| result := inject_Z res; state_results := results;
                   state_samples := samples |} Hr Hs) as [Hr' Hs'].
    apply IH; assumption.
Qed.

Lemma py_select_from_in {X W : Type} (better : W -> W -> bool) (l : list (X * W)) :
  forall best, In (py_select_from better best l) (fst best :: map fst l).
Proof.
  induction l as [| x l IH]; intro best; simpl; [auto |].
  destruct (better (snd x) (snd best)).
  - right. apply IH.
  - destruct (IH best) as [H | H]; [left; exact H | right; right; exact H].
Qed.

Lemma map_fst_pair {X W : Type} (g : X -> W) (l : list X) :
  map fst (map (fun x => (x, g x)) l) = l.
Proof. induction l as [| x l IH]; simpl; congruence. Qed.

Lemma ranking_divisor_nonzero (samples : table board) (s : board) :
  Qeq_bool (ranking_divisor board board_eq_dec samples s) 0 = false.
Proof.
  unfold ranking_divisor.
  destruct (Qltb 0 (titem samples (KBoard s))) eqn:E; [| reflexivity].
  unfold Qltb in E. apply negb_true_iff in E.
  destruct (Qeq_bool (titem samples (KBoard s)) 0) eqn:E0; [| reflexivity].
  apply Qeq_bool_iff in E0.
  assert (H : (titem samples (KBoard s) <= 0)%Q) by (rewrite E0; apply Qle_refl).
  apply Qle_bool_iff in H. congruence.
Qed.

(** the final selection names a legal move; the confidence it then
    computes divides by the sample count of that move's state *)
Lemma uct_finish_cases (root : board) (side : Z) (results samples : table board) :
  available_moves game_spec root <> [] ->
  exists mv,
    In mv (available_moves game_spec root) /\
    uct_finish board board_eq_dec game_spec root side results samples =
      (c <- py_div (titem results (KBoard (apply_move game_spec root mv side)))
                   (titem samples (KBoard (apply_move game_spec root mv side))) ;;
       Return (c, mv)).
Proof.
  intro Hne. unfold uct_finish.
  destruct (move_states_spec root side) as (_ & Hkeys & _).
  pose proof (move_states_nonempty root side Hne) as Hms.
  unfold py_max.
  rewrite (with_keys_map _
             (fun x => (titem results (KBoard (apply_move game_spec root x side))
                        / ranking_divisor board board_eq_dec samples
                            (apply_move game_spec root x side))%Q)).
  - cbn [bind].
    destruct (states_of root side) as [| [m0 s0] ms] eqn:Ems; [congruence |].
    cbn [dict_keys map py_select fst].
    set (best := py_select_from _ _ _).
    assert (Hin : In best (dict_keys (states_of root side))).
    { rewrite Ems. subst best.
      match goal with
      | |- In (py_select_from ?f ?b ?l) _ =>
          pose proof (py_select_from_in f l b) as H
      end.
      rewrite map_fst_pair in H. exact H. }
    exists best. split; [apply Hkeys; rewrite <- Ems; exact Hin |].
    cbn [bind]. rewrite <- Ems. rewrite (move_states_get root side best Hin).
    cbn [bind]. reflexivity.
  - intros x Hx. rewrite (move_states_get root side x Hx). cbn [bind].
    unfold py_div. rewrite ranking_divisor_nonzero. reflexivity.
Qed.

End TreeFacts.

(** ** Legal moves of the flat search *)

Section FlatLegal.
Variable board : Type.
Variable game_spec : BaseGameSpec board.
Variable oracle : nat -> nat.
Variable network : nat -> board -> Z -> list Z.


End FlatLegal.

(** ** Runs on the small game *)

Lemma toy_bounded_play : bounded_play toy_spec toy_depth.
Proof.
  intros b mv side Hw Hin. destruct b; simpl in *; try discriminate; try tauto.
  - destruct (snd mv =? 0); simpl; lia.
  - destruct (snd mv =? 0); simpl; lia.
Qed.

Lemma toy_results_in_range : results_in_range toy_spec.
Proof.
  intros b r H. destruct b; simpl in H; inversion H; lia.
Qed.

Lemma sample_returns_result_and_first_move_witness :
  toy_sample [] 1 W 1 false 0 = Return (1, None, 0%nat) /\
  toy_sample [] 1 D 1 false 0 = Return (0, None, 0%nat) /\
  toy_sample [0; 1]%nat 3 Root 1 false 0 = Return (-1, Some (0, 0), 2%nat) /\
  exists mv r next_move pos2,
    random_choice (draws [1]%nat) (toy_available_moves Root) 0 = Return (mv, 1%nat) /\
    In mv (toy_available_moves Root) /\
    toy_sample [1]%nat 2 (toy_apply_move Root mv 1) (-1) false 1
      = Return (r, next_move, pos2) /\
    toy_sample [1]%nat 3 Root 1 false 0 = Return (r, Some mv, pos2).
Proof.
  split; [| split; [| split]].
  - apply (proj1 (sample_returns_result_and_first_move toy toy_spec (draws [])
                    toy_network 0 W 1 false 0) 1). reflexivity.
  - apply (proj1 (proj2 (sample_returns_result_and_first_move toy toy_spec (draws [])
                           toy_network 0 D 1 false 0))); reflexivity.
  - apply (proj1 (proj2 (proj2 (sample_returns_result_and_first_move toy toy_spec
                                  (draws [0; 1]%nat) toy_network 2 Root 1 false 0)))
             eq_refl ltac:(discriminate) (0, 0) 1%nat (-1) (Some (0, 1)) 2%nat);
      reflexivity.
  - apply (proj2 (proj2 (proj2 (sample_returns_result_and_first_move toy toy_spec
                                  (draws [1]%nat) toy_network 2 Root 1 false 0)))
             toy_depth toy_bounded_play).
    + simpl. lia.
    + reflexivity.
    + discriminate.
Defined.

Lemma flat_fallback_least_sampled_witness :
  (exists c m,
      toy_flat [1; 0; 0; 0; 0]%nat 3 Root (-1) 3 false 0 = Return (c, inl m)) /\
  (forall c label,
      toy_flat [1; 0; 0; 0; 0]%nat 3 Root (-1) 3 false 0 = Return (c, label) ->
      (c == 0)%Q) /\
  toy_flat [] 3 Root (-1) 0 false 0 = Raise ValueError.
Proof.
  pose proof (flat_fallback_least_sampled toy toy_spec
                (draws [1; 0; 0; 0; 0]%nat) toy_network 3 Root (-1) 3 false 0
                {| move_wins := [];
                   move_samples := [(Some (0, 1), 1); (Some (0, 0), 2)];
                   move := Some (Some (0, 0)) |} 5%nat
                ltac:(vm_compute; reflexivity)) as (_ & H & _).
  destruct (H eq_refl) as (Hpart & Htot & _).
  split; [apply Htot; [lia | reflexivity] |].
  split; [intros c label Hret; apply (Hpart c label Hret) |].
  apply (proj1 (proj2 (flat_fallback_least_sampled toy toy_spec
                         (draws []) toy_network 3 Root (-1) 0 false 0
                         flat_init 0%nat eq_refl))); [reflexivity | lia].
Defined.

Lemma flat_search_on_finished_root_witness :
  toy_flat [] 1 W 1 3 false 0 = Return ((inject_Z 3 / inject_Z 3)%Q, inl None) /\
  toy_flat [] 1 L 1 3 false 0 = Return ((inject_Z 0 / inject_Z 3)%Q, inl None).
Proof.
  split.
  - apply (proj2 (proj2 (flat_search_on_finished_root toy toy_spec (draws [])
                           toy_network 0 W 1 1 3 0 eq_refl ltac:(lia)))).
  - apply (proj2 (proj2 (flat_search_on_finished_root toy toy_spec (draws [])
                           toy_network 0 L 1 (-1) 3 0 eq_refl ltac:(lia)))).
Defined.


(** the tree search does return a legal move on this run *)
Example toy_uct_returns :
  toy_uct [1; 0; 1; 0]%nat 3 Root 1 3 0 = Return ((4 # 4)%Q, (0, 1)).
Proof. vm_compute. reflexivity. Qed.

Lemma uct_scores_stay_normalised_witness :
  (exists results samples pos,
      toy_uct_iterations [0; 1; 0; 1]%nat 2 3 Root 1 [] [] 0
      = Return (results, samples, pos) /\
      scores_bounded toy_eq_dec results samples) /\
  (0 <= result (backup_step toy toy_eq_dec
                  (backup toy toy_eq_dec [(A, 1%Z)]
                     {| result := inject_Z (-1)%Z; state_results := [];
                        state_samples := [(KBoard A, 1)] |})
                  (L, (-1)%Z)) <= 1)%Q.
Proof.
  split.
  - eexists. eexists. eexists. split.
    + vm_compute. reflexivity.
    + eapply (proj2 (uct_scores_stay_normalised toy toy_eq_dec toy_spec
                       (draws [0; 1; 0; 1]%nat) toy_results_in_range 1 (or_introl eq_refl))
                2%nat 3%nat Root 0%nat).
      vm_compute. reflexivity.
  - apply (proj1 (uct_scores_stay_normalised toy toy_eq_dec toy_spec
                    (draws [0; 1; 0; 1]%nat) toy_results_in_range 1 (or_introl eq_refl))
             3%nat Root [] [(KBoard A, 1%Q)] 2%nat (-1) [(A, 1); (L, -1)] 4%nat
             ltac:(vm_compute; reflexivity) 1%nat (L, -1) eq_refl).
Defined.

(** ** Where the code departs from the stated behaviour *)

(** C1: after two iterations on the small game both children of the
    root have an entry in state_samples, [B] with score 1 of 1 sample
    and [A] with score 0 of 1 sample, so that UCB1 ranks the move to
    [B] first; the descent of the third iteration nevertheless takes
    the move the random source names, the one to [A]. *)
Theorem uct_descent_ignores_ucb1 :
  match toy_uct_iterations [1; 0; 1; 0]%nat 2 3 Root 1 [] [] 0 with
  | Return (results, samples, pos) =>
      let children := move_states_of toy toy_spec Root 1 in
      children = [((0, 0), A); ((0, 1), B)] /\
      forallb (fun s => dict_contains (pykey_eq_dec toy toy_eq_dec) samples (KBoard s))
              (dict_values children) = true /\
      (table_item toy toy_eq_dec results (KBoard A) == 0 /\
       table_item toy toy_eq_dec samples (KBoard A) == 1 /\
       table_item toy toy_eq_dec results (KBoard B) == 1 /\
       table_item toy toy_eq_dec samples (KBoard B) == 1)%Q /\
      all_in_state_samples toy toy_eq_dec samples children = false /\
      descent_move toy toy_eq_dec (draws [1; 0; 1; 0]%nat) samples children pos
      = Return ((0, 0), S pos)
  | _ => False
  end /\
  (_upper_confidence_bounds 0 1 (ln (1 + 1)) < _upper_confidence_bounds 1 1 (ln (1 + 1)))%R.
Proof.
  split.
  - vm_compute. repeat split; reflexivity.
  - unfold _upper_confidence_bounds.
    generalize (sqrt (2 * ln (1 + 1) / 1))%R. intro x. lra.
Qed.

(** C2: five rollouts on the small game give the move [(0,0)] two
    wins in four samples and the move [(0,1)] one win in one sample.
    The ratio of [(0,1)] is the larger one, and the flat search
    returns [(0,0)] with confidence 2/4: its ranking divides every win
    count by the sample count of the last rollout's move. *)
Theorem flat_search_ranks_by_win_count :
  match toy_flat_rollouts [0; 0; 0; 0; 0; 1; 0; 1; 1]%nat 5 3 Root 1 false flat_init 0 with
  | Return (st, _) =>
      move_wins st = [(Some (0, 0), 2); (Some (0, 1), 1)] /\
      move_samples st = [(Some (0, 0), 4); (Some (0, 1), 1)] /\
      move st = Some (Some (0, 1)) /\
      (inject_Z (dict_item OptMove_eq_dec 0%Z (move_wins st) (Some (0, 0)%Z))
       / inject_Z (dict_item OptMove_eq_dec 0%Z (move_samples st) (Some (0, 0)%Z))
       < inject_Z (dict_item OptMove_eq_dec 0%Z (move_wins st) (Some (0, 1)%Z))
         / inject_Z (dict_item OptMove_eq_dec 0%Z (move_samples st) (Some (0, 1)%Z)))%Q /\
      flat_best_move st = Return (Some (0, 0))
  | _ => False
  end /\
  toy_flat [0; 0; 0; 0; 0; 1; 0; 1; 1]%nat 3 Root 1 5 false 0
  = Return ((2 # 4)%Q, inl (Some (0, 0))).
Proof.
  split.
  - vm_compute. repeat split; reflexivity.
  - vm_compute. reflexivity.
Qed.

(** C3: in the second iteration on the small game the rollout path is
    [(A, 1); (L, -1)] and the terminal result is -1. The value added to
    state_results[L] is 1/2, the transform of the value 0 computed for
    [A]; the transform of the terminal result for the side -1 is 1. *)
Theorem uct_backup_compounds_result :
  match toy_uct_iterations [0; 1; 0; 1]%nat 1 3 Root 1 [] [] 0 with
  | Return (results1, samples1, pos1) =>
      uct_descend toy toy_eq_dec toy_spec (draws [0; 1; 0; 1]%nat)
        3 samples1 Root 1 true [] pos1
      = Return (-1, [(A, 1); (L, -1)], 4%nat) /\
      match toy_uct_iterations [0; 1; 0; 1]%nat 2 3 Root 1 [] [] 0 with
      | Return (results2, samples2, _) =>
          (table_item toy toy_eq_dec samples2 (KBoard L)
           - table_item toy toy_eq_dec samples1 (KBoard L) == 1)%Q /\
          (table_item toy toy_eq_dec results2 (KBoard L)
           - table_item toy toy_eq_dec results1 (KBoard L) == 1 # 2)%Q /\
          (inject_Z (-1)%Z * inject_Z (-1)%Z / 2 + (1 # 2) == 1)%Q
      | _ => False
      end
  | _ => False
  end.
Proof. vm_compute. repeat split; reflexivity. Qed.

(** C4: the root of the small game is not finished and has two legal
    moves. With no sample at all, and with one sample whose rollout is
    lost, the final selection picks a child without samples and the
    division of the return statement raises ZeroDivisionError. *)
Theorem uct_confidence_divides_by_zero :
  toy_has_winner Root = None /\
  toy_available_moves Root = [(0, 0); (0, 1)] /\
  toy_uct [] 3 Root 1 0 0 = Raise ZeroDivisionError /\
  toy_uct [1]%nat 3 Root (-1) 1 0 = Raise ZeroDivisionError.
Proof. repeat split; vm_compute; reflexivity. Qed.

(** C5: the root of the small game is not finished and has two legal
    moves, and the number of samples is 1. The single rollout of the
    tree search goes to [B] and is lost for the minus player, so the
    final selection ranks both children 0 and takes the first one, [A],
    which has no samples: the tree search raises ZeroDivisionError and
    returns no move at all. The flat search on the same input returns
    the legal move [(0,1)]. *)
Theorem uct_returns_no_move_after_lost_rollout :
  toy_has_winner Root = None /\
  toy_available_moves Root = [(0, 0); (0, 1)] /\
  match toy_uct_iterations [1]%nat 1 3 Root (-1) [] [] 0 with
  | Return (results, samples, _) =>
      (table_item toy toy_eq_dec samples (KBoard A) == 0)%Q /\
      (table_item toy toy_eq_dec samples (KBoard B) == 1)%Q /\
      (table_item toy toy_eq_dec results (KBoard B) == 0)%Q /\
      uct_finish toy toy_eq_dec toy_spec Root (-1) results samples
      = Raise ZeroDivisionError
  | _ => False
  end /\
  (forall c mv, toy_uct [1]%nat 3 Root (-1) 1 0 <> Return (c, mv)) /\
  toy_flat [1]%nat 3 Root (-1) 1 false 0 = Return (0%Q, inl (Some (0, 1))).
Proof.
  split; [reflexivity |]. split; [reflexivity |]. split; [| split].
  - vm_compute. repeat split; reflexivity.
  - intros c mv H. vm_compute in H. discriminate.
  - vm_compute. reflexivity.
Qed.

(** ** Further properties of the flat search *)

Lemma counter_total_set (d : counter) (k : option Move) (v : Z) :
  counter_total (dict_set OptMove_eq_dec d k v)
  = counter_total d - dict_item OptMove_eq_dec 0 d k + v.
Proof.
  unfold counter_total, dict_values, dict_item.
  induction d as [| [k' v'] d IH]; cbn [dict_set dict_get map snd fold_right].
  - lia.
  - destruct (OptMove_eq_dec k k') as [E | E]; cbn [map snd fold_right].
    + lia.
    + rewrite IH. lia.
Qed.

Lemma counter_total_incr (d : counter) (k : option Move) :
  counter_total (counter_incr d k) = counter_total d + 1.
Proof. unfold counter_incr. rewrite counter_total_set. lia. Qed.

Lemma Qratio_unit (a b : Z) :
  0 <= a <= b -> b <> 0 -> (0 <= inject_Z a / inject_Z b <= 1)%Q.
Proof.
  intros Hab Hb.
  assert (Hpos : (0 < inject_Z b)%Q).
  { change 0%Q with (inject_Z 0). rewrite <- Zlt_Qlt. lia. }
  split.
  - apply Qle_shift_div_l; [exact Hpos |]. rewrite Qmult_0_l.
    change 0%Q with (inject_Z 0). rewrite <- Zle_Qle. lia.
  - apply Qle_shift_div_r; [exact Hpos |]. rewrite Qmult_1_l.
    rewrite <- Zle_Qle. lia.
Qed.

Section FlatCounts.
Variable board : Type.
Variable game_spec : BaseGameSpec board.
Variable oracle : nat -> nat.
Variable network : nat -> board -> Z -> list Z.

Local Abbreviation sample := (_monte_carlo_sample board game_spec oracle network).
Local Abbreviation rollouts := (flat_rollouts board game_spec oracle network).
Local Abbreviation flat := (monte_carlo_tree_search board game_spec oracle network).
Local Abbreviation item := (dict_item OptMove_eq_dec 0).

Lemma flat_rollouts_counts fuel root side policy :
  forall n st pos st' pos',
    rollouts n fuel root side policy st pos = Return (st', pos') ->
    (forall m, 0 <= item (move_wins st) m <= item (move_samples st) m) ->
    counter_total (move_wins st) <= counter_total (move_samples st) ->
    counter_total (move_samples st') = counter_total (move_samples st) + Z.of_nat n /\
    counter_total (move_wins st') <= counter_total (move_samples st') /\
    (forall m, 0 <= item (move_wins st') m <= item (move_samples st') m).
Proof.
  induction n as [| n IH]; intros st pos st' pos' Hrun Hle Htot; simpl in Hrun.
  - inversion Hrun. subst. split; [lia | split; assumption].
  - destruct (sample fuel root side policy pos) as [[[r m] pos1] | |] eqn:Es;
      simpl in Hrun; try discriminate.
    apply IH in Hrun.
    + cbn [move_wins move_samples] in Hrun. rewrite counter_total_incr in Hrun.
      destruct Hrun as (H1 & H2 & H3). split; [lia | split; assumption].
    + intro m0. cbn [move_wins move_samples]. specialize (Hle m0).
      destruct (r =? side); rewrite !counter_incr_item;
        destruct (OptMove_eq_dec m0 m); subst; lia.
    + cbn [move_wins move_samples].
      destruct (r =? side); rewrite !counter_total_incr; lia.
Qed.

(** X1: after the sampling loop of the flat search every rollout has
    been counted exactly once: the sample counts add up to the number
    of rollouts, the win counts add up to no more, and no move has more
    wins than samples. *)
Theorem flat_counts_every_rollout_once :
  forall fuel root side N policy pos st pos',
    rollouts (Z.to_nat N) fuel root side policy flat_init pos = Return (st, pos') ->
    counter_total (move_samples st) = Z.max 0 N /\
    counter_total (move_wins st) <= Z.max 0 N /\
    (forall m, 0 <= item (move_wins st) m <= item (move_samples st) m).
Proof.
  intros fuel root side N policy pos st pos' Hrun.
  apply flat_rollouts_counts in Hrun.
  - simpl in Hrun. destruct Hrun as (H1 & H2 & H3).
    split; [lia | split; [lia | exact H3]].
  - intro m. unfold dict_item. simpl. lia.
  - simpl. lia.
Qed.

(** X2: the confidence the flat search returns, in either mode, lies
    between 0 and 1. *)
Theorem flat_confidence_in_unit_interval :
  forall fuel root side N policy pos c label,
    monte_carlo_tree_search board game_spec oracle network
      fuel root side N policy pos = Return (c, label) ->
    (0 <= c <= 1)%Q.
Proof.
  intros fuel root side N policy pos c label Hret.
  unfold monte_carlo_tree_search in Hret.
  destruct (rollouts (Z.to_nat N) fuel root side policy flat_init pos)
    as [[st pos'] | |] eqn:Hrun; cbn [bind] in Hret; try discriminate.
  assert (Hle : forall m0, 0 <= item (move_wins st) m0 <= item (move_samples st) m0).
  { apply (flat_rollouts_counts _ _ _ _ _ _ _ _ _ Hrun).
    - intro m0. unfold dict_item. simpl. lia.
    - simpl. lia. }
  unfold flat_finish in Hret.
  destruct (flat_best_move st) as [m | |]; cbn [bind] in Hret; try discriminate.
  assert (Hc : forall c0, py_div (inject_Z (item (move_wins st) m))
                            (inject_Z (item (move_samples st) m)) = Return c0 ->
                          (0 <= c0 <= 1)%Q).
  { intros c0 H. unfold py_div in H.
    destruct (Qeq_bool (inject_Z (item (move_samples st) m)) 0) eqn:E; [discriminate |].
    inversion H. apply Qratio_unit; [apply Hle |].
    intro H0. rewrite H0 in E. discriminate. }
  destruct (match policy with
            | true => v <- one_hot_81 (tuple_move_to_flat game_spec m);; Return (inr v)
            | false => Return (inl m)
            end) as [lab | |]; cbn [bind] in Hret; try discriminate.
  destruct (py_div (inject_Z (item (move_wins st) m))
              (inject_Z (item (move_samples st) m))) as [c0 | |] eqn:E;
    cbn [bind] in Hret; try discriminate.
  inversion Hret. subst. apply Hc. reflexivity.
Qed.

End FlatCounts.

Lemma flat_counts_every_rollout_once_witness :
  counter_total [(Some (0, 0), 4); (Some (0, 1), 1)] = Z.max 0 5.
Proof.
  apply (proj1 (flat_counts_every_rollout_once toy toy_spec
                  (draws [0; 0; 0; 0; 0; 1; 0; 1; 1]%nat) toy_network 3 Root 1 5 false 0
                  {| move_wins := [(Some (0, 0), 2); (Some (0, 1), 1)];
                     move_samples := [(Some (0, 0), 4); (Some (0, 1), 1)];
                     move := Some (Some (0, 1)) |} 9%nat
                  ltac:(vm_compute; reflexivity))).
Defined.

Lemma flat_confidence_in_unit_interval_witness : (0 <= 2 # 4 <= 1)%Q.
Proof.
  apply (flat_confidence_in_unit_interval toy toy_spec
           (draws [0; 0; 0; 0; 0; 1; 0; 1; 1]%nat) toy_network 3 Root 1 5 false 0
           (2 # 4)%Q (inl (Some (0, 0)))).
  vm_compute. reflexivity.
Defined.

(** ** The policy-guided mode *)

Lemma list_assign_length {X : Type} (l : list X) (i : nat) (v : X) :
  length (list_assign l i v) = length l.
Proof.
  revert i. induction l as [| x l IH]; intros [| i]; simpl; try reflexivity.
  rewrite IH. reflexivity.
Qed.

Lemma list_assign_nth {X : Type} (l : list X) (i j : nat) (v d : X) :
  (i < length l)%nat ->
  nth j (list_assign l i v) d = if (j =? i)%nat then v else nth j l d.
Proof.
  revert i j. induction l as [| x l IH]; intros i j Hi; simpl in Hi; [lia |].
  destruct i as [| i], j as [| j]; simpl; try reflexivity.
  apply IH. lia.
Qed.

Lemma one_hot_81_in_range (i : Z) :
  -81 <= i < 81 ->
  exists v,
    one_hot_81 i = Return v /\
    length v = 81%nat /\
    forall j, nth j v 0 = if (j =? Z.to_nat (i mod 81))%nat then 1 else 0.
Proof.
  intro Hi. unfold one_hot_81.
  replace ((-81 <=? i) && (i <? 81)) with true
    by (symmetry; apply andb_true_iff; split; [apply Z.leb_le | apply Z.ltb_lt]; lia).
  eexists. split; [reflexivity |]. split.
  - rewrite list_assign_length. apply repeat_length.
  - intro j. rewrite list_assign_nth.
    + destruct (j =? Z.to_nat (i mod 81))%nat; [reflexivity | apply nth_repeat].
    + rewrite repeat_length.
      pose proof (Z.mod_pos_bound i 81 ltac:(lia)). lia.
Qed.

Lemma one_hot_81_out_of_range (i : Z) :
  i < -81 \/ 81 <= i -> one_hot_81 i = Raise IndexError.
Proof.
  intro Hi. unfold one_hot_81.
  replace ((-81 <=? i) && (i <? 81)) with false; [reflexivity |].
  symmetry. apply andb_false_iff.
  destruct Hi; [left; apply Z.leb_gt | right; apply Z.ltb_ge]; lia.
Qed.

Lemma indices_of_one_none (i0 : Z) (v : list Z) :
  Forall (fun x => x <> 1) v -> indices_of_one i0 v = [].
Proof.
  revert i0. induction v as [| x v IH]; intros i0 H; simpl; [reflexivity |].
  inversion H as [| ? ? Hx Hv]. subst.
  destruct (x =? 1) eqn:E; [apply Z.eqb_eq in E; contradiction | apply IH, Hv].
Qed.

Lemma indices_of_one_first (i0 : Z) (pre post : list Z) :
  Forall (fun x => x <> 1) pre ->
  exists rest,
    indices_of_one i0 (pre ++ 1 :: post) = (i0 + Z.of_nat (length pre)) :: rest.
Proof.
  revert i0. induction pre as [| x pre IH]; intros i0 H.
  - simpl. rewrite Z.add_0_r. eauto.
  - inversion H as [| ? ? Hx Hv]. subst. cbn [app indices_of_one].
    destruct (x =? 1) eqn:E; [apply Z.eqb_eq in E; contradiction |].
    destruct (IH (i0 + 1) Hv) as [rest Hr]. exists rest. rewrite Hr.
    f_equal. cbn [length]. lia.
Qed.

Section PolicyFacts.
Variable board : Type.
Variable game_spec : BaseGameSpec board.
Variable oracle : nat -> nat.
Variable network : nat -> board -> Z -> list Z.

Local Abbreviation sample := (_monte_carlo_sample board game_spec oracle network).
Local Abbreviation pick := (select_move board game_spec oracle network).
Local Abbreviation rollouts := (flat_rollouts board game_spec oracle network).
Local Abbreviation flat := (monte_carlo_tree_search board game_spec oracle network).

(** X3: in policy mode the move of a rollout step is the decoding of
    the first index at which the network's vector holds 1, whatever
    the legal moves are; a vector without a 1 makes the step, and the
    rollout of an unfinished position with moves, raise IndexError. *)
Theorem policy_move_is_first_indicated :
  forall (b : board) (side : Z) (moves : list Move) (pos : nat),
    (forall pre post,
        network pos b side = pre ++ 1 :: post ->
        Forall (fun x => x <> 1) pre ->
        pick true b side moves pos
        = Return (flat_move_to_tuple game_spec (Z.of_nat (length pre)), S pos)) /\
    (Forall (fun x => x <> 1) (network pos b side) ->
     pick true b side moves pos = Raise IndexError /\
     forall fuel,
       has_winner game_spec b = None ->
       available_moves game_spec b <> [] ->
       sample (S fuel) b side true pos = Raise IndexError).
Proof.
  intros b side moves pos. split.
  - intros pre post Hv Hpre. unfold select_move. rewrite Hv.
    destruct (indices_of_one_first 0 pre post Hpre) as [rest Hr].
    rewrite Hr. reflexivity.
  - intro Hnone.
    assert (Hpick : forall ms, pick true b side ms pos = Raise IndexError).
    { intro ms. unfold select_move. rewrite indices_of_one_none by exact Hnone.
      reflexivity. }
    split; [apply Hpick |].
    intros fuel Hw Hm.
    rewrite (sample_step board game_spec oracle network) by assumption.
    rewrite Hpick. reflexivity.
Qed.

(** X4: what the flat search returns in policy mode is a vector of 81
    entries that holds 1 at the flat index of the selected move, a
    negative index counting from the end, and 0 elsewhere; a flat
    index outside [-81, 81) makes the search raise IndexError. *)
Theorem policy_label_is_one_hot :
  forall fuel root side N pos st pos' m,
    rollouts (Z.to_nat N) fuel root side true flat_init pos = Return (st, pos') ->
    flat_best_move st = Return m ->
    (-81 <= tuple_move_to_flat game_spec m < 81 ->
     forall c label,
       flat fuel root side N true pos = Return (c, label) ->
       exists v,
         label = inr v /\
         length v = 81%nat /\
         forall j, nth j v 0 =
                   if (j =? Z.to_nat (tuple_move_to_flat game_spec m mod 81))%nat
                   then 1 else 0) /\
    (tuple_move_to_flat game_spec m < -81 \/ 81 <= tuple_move_to_flat game_spec m ->
     flat fuel root side N true pos = Raise IndexError).
Proof.
  intros fuel root side N pos st pos' m Hrun Hb.
  unfold monte_carlo_tree_search. rewrite Hrun. cbn [bind].
  unfold flat_finish. rewrite Hb. cbn [bind]. split.
  - intros Hi c label Hret.
    destruct (one_hot_81_in_range _ Hi) as (v & Hv & Hlen & Hnth).
    rewrite Hv in Hret. cbn [bind] in Hret.
    destruct (py_div _ _) as [c0 | |]; cbn [bind] in Hret; try discriminate.
    inversion Hret. subst. eauto.
  - intro Hi. rewrite one_hot_81_out_of_range by exact Hi. reflexivity.
Qed.

End PolicyFacts.

Lemma policy_move_is_first_indicated_witness :
  select_move toy toy_spec (draws []) toy_network true Root 1 [(0, 0); (0, 1)] 0
  = Return ((0, 1), 1%nat) /\
  _monte_carlo_sample toy toy_spec (draws []) (fun _ _ _ => [0; 2; 0]) 1 Root 1 true 0
  = Raise IndexError.
Proof.
  split.
  - apply (proj1 (policy_move_is_first_indicated toy toy_spec (draws []) toy_network
                    Root 1 [(0, 0); (0, 1)] 0%nat) [0] [0]); [reflexivity |].
    repeat constructor. discriminate.
  - apply (proj2 (policy_move_is_first_indicated toy toy_spec (draws [])
                    (fun _ _ _ => [0; 2; 0]) Root 1 [] 0%nat)).
    + repeat constructor; discriminate.
    + reflexivity.
    + discriminate.
Defined.

Lemma policy_label_is_one_hot_witness :
  exists v,
    toy_flat [] 3 Root (-1) 3 true 0 = Return ((0 # 3)%Q, inr v) /\
    length v = 81%nat /\
    nth 1 v 0 = 1 /\ nth 0 v 0 = 0.
Proof.
  destruct (proj1 (policy_label_is_one_hot toy toy_spec (draws []) toy_network
                     3 Root (-1) 3 0
                     {| move_wins := []; move_samples := [(Some (0, 1), 3)];
                        move := Some (Some (0, 1)) |} 3%nat (Some (0, 1))
                     ltac:(vm_compute; reflexivity) ltac:(vm_compute; reflexivity))
              ltac:(simpl; lia) (0 # 3)%Q
              (inr (list_assign (repeat 0 81%nat) 1 1))
              ltac:(vm_compute; reflexivity))
    as (v & Hl & Hlen & Hnth).
  exists v. split; [rewrite <- Hl; vm_compute; reflexivity |].
  split; [exact Hlen |]. split; [apply (Hnth 1%nat) | apply (Hnth 0%nat)].
Defined.

(** ** Degenerate calls *)

Section EdgeFacts.
Variable board : Type.
Variable board_eq_dec : forall x y : board, {x = y} + {x <> y}.
Variable game_spec : BaseGameSpec board.
Variable oracle : nat -> nat.
Variable network : nat -> board -> Z -> list Z.

Local Abbreviation sample := (_monte_carlo_sample board game_spec oracle network).
Local Abbreviation rollouts := (flat_rollouts board game_spec oracle network).
Local Abbreviation flat := (monte_carlo_tree_search board game_spec oracle network).
Local Abbreviation uct := (monte_carlo_tree_search_uct board board_eq_dec game_spec oracle).
Local Abbreviation iterations := (uct_iterations board board_eq_dec game_spec oracle).
Local Abbreviation states_of := (move_states_of board game_spec).

(** X5: with a number of samples that is zero or negative no rollout
    is run and neither search returns: the flat search raises
    ValueError from [min] over the empty sample table, in either mode,
    and the tree search on a root with a legal move raises
    ZeroDivisionError in its return statement. *)
Theorem searches_without_samples_raise :
  forall fuel root side N policy pos,
    N <= 0 ->
    monte_carlo_tree_search board game_spec oracle network
      fuel root side N policy pos = Raise ValueError /\
    (available_moves game_spec root <> [] ->
     monte_carlo_tree_search_uct board board_eq_dec game_spec oracle
       fuel root side N pos = Raise ZeroDivisionError).
Proof.
  intros fuel root side N policy pos HN.
  assert (E : Z.to_nat N = 0%nat) by lia.
  split.
  - unfold monte_carlo_tree_search. rewrite E. reflexivity.
  - intro Hm. unfold monte_carlo_tree_search_uct. rewrite E. cbn [uct_iterations bind].
    destruct (uct_finish_cases board board_eq_dec game_spec root side [] [] Hm)
      as (mv & _ & Hfin).
    rewrite Hfin. reflexivity.
Qed.

Lemma move_states_empty (b : board) (side : Z) :
  available_moves game_spec b = [] -> states_of b side = [].
Proof. intro H. unfold move_states_of. rewrite H. reflexivity. Qed.

Lemma iterations_without_moves (fuel : nat) root side :
  available_moves game_spec root = [] ->
  forall n results samples pos,
    iterations n (S fuel) root side results samples pos = Return (results, samples, pos).
Proof.
  intros Hm n. induction n as [| n IH]; intros results samples pos; [reflexivity |].
  cbn [uct_iterations]. unfold uct_iteration.
  rewrite (descend_S board board_eq_dec game_spec oracle).
  rewrite (move_states_empty root side Hm). cbn [bind backup fold_left].
  cbn [state_results state_samples]. apply IH.
Qed.

(** X6: on a root without legal moves every iteration of the tree
    search ends at once as a draw with an empty rollout path and
    leaves both tables as they were, and the final selection raises
    ValueError from [max] over the empty dictionary of child states. *)
Theorem uct_without_moves_raises :
  forall (fuel : nat) root side N pos,
    available_moves game_spec root = [] ->
    (forall results samples p,
        uct_descend board board_eq_dec game_spec oracle (S fuel) samples root side
          true [] p = Return (0, [], p) /\
        iterations (Z.to_nat N) (S fuel) root side results samples p
        = Return (results, samples, p)) /\
    uct (S fuel) root side N pos = Raise ValueError.
Proof.
  intros fuel root side N pos Hm. split.
  - intros results samples p. split.
    + rewrite (descend_S board board_eq_dec game_spec oracle).
      rewrite (move_states_empty root side Hm). reflexivity.
    + apply iterations_without_moves. exact Hm.
  - unfold monte_carlo_tree_search_uct.
    rewrite (iterations_without_moves fuel root side Hm). cbn [bind].
    unfold uct_finish. rewrite (move_states_empty root side Hm). reflexivity.
Qed.

Lemma flat_rollouts_constant (fuel : nat) root side policy r :
  (forall p, sample fuel root side policy p = Return (r, None, p)) ->
  forall n m mv pos,
    0 <= m ->
    rollouts n fuel root side policy
      {| move_wins := if r =? side then only_none m else [];
         move_samples := only_none m; move := mv |} pos
    = Return ({| move_wins := if r =? side then only_none (m + Z.of_nat n) else [];
                 move_samples := only_none (m + Z.of_nat n);
                 move := match n with O => mv | S _ => Some None end |}, pos).
Proof.
  intros Hs n. induction n as [| n IH]; intros m mv pos Hm.
  - simpl. rewrite Z.add_0_r. reflexivity.
  - cbn [flat_rollouts]. rewrite Hs. cbn [bind move_wins move_samples].
    rewrite counter_incr_only_none by exact Hm.
    replace (if r =? side then counter_incr (if r =? side then only_none m else []) None
             else if r =? side then only_none m else [])
      with (if r =? side then only_none (m + 1) else [] : counter)
      by (destruct (r =? side); [rewrite counter_incr_only_none by exact Hm |]; reflexivity).
    rewrite IH by lia.
    replace (m + 1 + Z.of_nat n) with (m + Z.of_nat (S n)) by lia.
    destruct n; reflexivity.
Qed.

(** X7: on a root that is not finished and has no legal move, with at
    least one sample and a side that is not 0, every rollout is a draw
    without a move, no win is recorded, and the plain flat search
    returns confidence 0 and the move None. *)
Theorem flat_search_on_blocked_root :
  forall (fuel : nat) root side N pos,
    has_winner game_spec root = None ->
    available_moves game_spec root = [] ->
    side <> 0 ->
    1 <= N ->
    rollouts (Z.to_nat N) (S fuel) root side false flat_init pos =
      Return ({| move_wins := []; move_samples := [(None, N)];
                 move := Some None |}, pos) /\
    flat (S fuel) root side N false pos
    = Return ((inject_Z 0 / inject_Z N)%Q, inl None).
Proof.
  intros fuel root side N pos Hw Hm Hside HN.
  assert (Hs : (0 =? side) = false) by (apply Z.eqb_neq; lia).
  assert (Hrun : rollouts (Z.to_nat N) (S fuel) root side false flat_init pos =
      Return ({| move_wins := []; move_samples := [(None, N)];
                 move := Some None |}, pos)).
  { pose proof (flat_rollouts_constant (S fuel) root side false 0
                  (fun p => sample_no_moves board game_spec oracle network
                              fuel root side false p Hw Hm)
                  (Z.to_nat N) 0 None pos (Z.le_refl 0)) as H.
    rewrite Hs in H. rewrite Z.add_0_l, Z2Nat.id in H by lia.
    unfold only_none in H. change (0 =? 0) with true in H. cbv iota in H.
    destruct (N =? 0) eqn:E; [lia |].
    destruct (Z.to_nat N) eqn:E1; [lia |]. exact H. }
  split; [exact Hrun |].
  unfold monte_carlo_tree_search. rewrite Hrun. cbn [bind].
  unfold flat_finish, flat_best_move. cbn [move_wins move_samples move].
  unfold py_min_Z. simpl. destruct (OptMove_eq_dec None None); [| congruence].
  simpl. unfold dict_item. simpl. destruct (OptMove_eq_dec None None); [| congruence].
  rewrite py_div_nonzero by lia. reflexivity.
Qed.

End EdgeFacts.

Lemma searches_without_samples_raise_witness :
  toy_flat [] 3 Root 1 0 false 0 = Raise ValueError /\
  toy_uct [] 3 Root 1 (-2) 0 = Raise ZeroDivisionError.
Proof.
  split.
  - apply (proj1 (searches_without_samples_raise toy toy_eq_dec toy_spec (draws [])
                    toy_network 3 Root 1 0 false 0 ltac:(lia))).
  - apply (proj2 (searches_without_samples_raise toy toy_eq_dec toy_spec (draws [])
                    toy_network 3 Root 1 (-2) false 0 ltac:(lia))).
    discriminate.
Defined.

Lemma uct_without_moves_raises_witness :
  toy_uct [] 1 D 1 4 0 = Raise ValueError /\
  toy_uct [] 1 W 1 4 0 = Raise ValueError.
Proof.
  split.
  - apply (proj2 (uct_without_moves_raises toy toy_eq_dec toy_spec (draws [])
                    0 D 1 4 0 eq_refl)).
  - apply (proj2 (uct_without_moves_raises toy toy_eq_dec toy_spec (draws [])
                    0 W 1 4 0 eq_refl)).
Defined.

Lemma flat_search_on_blocked_root_witness :
  toy_flat [] 1 D 1 3 false 0 = Return ((inject_Z 0 / inject_Z 3)%Q, inl None).
Proof.
  apply (proj2 (flat_search_on_blocked_root toy toy_spec (draws []) toy_network
                  0 D 1 3 0 eq_refl eq_refl ltac:(lia) ltac:(lia))).
Defined.

(** ** Further properties of the tree search *)

Lemma random_choice_return (oracle : nat -> nat) {X : Type} (seq : list X)
    (pos : nat) (x : X) (pos' : nat) :
  random_choice oracle seq pos = Return (x, pos') -> In x seq /\ pos' = S pos.
Proof.
  unfold random_choice.
  destruct (nth_error seq (oracle pos mod length seq)%nat) as [y |] eqn:E;
    [| discriminate].
  intro H. inversion H. subst. split; [eapply nth_error_In; exact E | reflexivity].
Qed.

Lemma Qltb_false_le (x y : Q) : Qltb x y = false -> (y <= x)%Q.
Proof.
  unfold Qltb. rewrite negb_false_iff. apply Qle_bool_iff.
Qed.

Lemma Qltb_true_lt (x y : Q) : Qltb x y = true -> (x < y)%Q.
Proof.
  unfold Qltb. rewrite negb_true_iff. intro H.
  apply Qnot_le_lt. intro Hle. apply Qle_bool_iff in Hle. congruence.
Qed.

Section TreeMore.
Variable board : Type.
Variable board_eq_dec : forall x y : board, {x = y} + {x <> y}.
Variable game_spec : BaseGameSpec board.
Variable oracle : nat -> nat.

Local Abbreviation titem := (table_item board board_eq_dec).
Local Abbreviation tadd := (table_add board board_eq_dec).
Local Abbreviation states_of := (move_states_of board game_spec).
Local Abbreviation descend := (uct_descend board board_eq_dec game_spec oracle).
Local Abbreviation iteration := (uct_iteration board board_eq_dec game_spec oracle).
Local Abbreviation iterations := (uct_iterations board board_eq_dec game_spec oracle).
Local Abbreviation bkup := (backup board board_eq_dec).
Local Abbreviation uct := (monte_carlo_tree_search_uct board board_eq_dec game_spec oracle).
Local Abbreviation known := (fun (samples : table board) (e : board * Z) =>
  dict_contains (pykey_eq_dec board board_eq_dec) samples (KBoard (fst e)) = true).

Lemma descent_move_return (samples : table board) (ms : dict Move board) pos mv pos' :
  descent_move board board_eq_dec oracle samples ms pos = Return (mv, pos') ->
  In mv (dict_keys ms) /\ pos' = S pos.
Proof.
  unfold descent_move.
  destruct (all_in_state_samples board board_eq_dec samples ms).
  - destruct (Qle_bool _ 0); discriminate.
  - apply random_choice_return.
Qed.

Lemma descend_path :
  forall fuel samples b cs first path0 pos r path' pos',
    descend fuel samples b cs first path0 pos = Return (r, path', pos') ->
    exists ext,
      path' = path0 ++ ext /\
      (first = false -> ext = []) /\
      legal_play game_spec b cs ext /\
      Forall (known samples) (removelast ext) /\
      (first = true -> available_moves game_spec b <> [] -> ext <> []).
Proof.
  induction fuel as [| fuel IH];
    intros samples b cs first path0 pos r path' pos' Hrun; [discriminate |].
  rewrite descend_S in Hrun.
  destruct (states_of b cs) as [| kv ms] eqn:Ems.
  - inversion Hrun. subst. exists []. rewrite app_nil_r.
    split; [reflexivity |]. split; [reflexivity |]. split; [exact I |].
    split; [constructor |]. intros _ Hm. exfalso.
    apply (move_states_nonempty board game_spec b cs Hm). exact Ems.
  - destruct (descent_move board board_eq_dec oracle samples (kv :: ms) pos)
      as [[mv pos1] | |] eqn:Edm; cbn [bind] in Hrun; try discriminate.
    apply descent_move_return in Edm. destruct Edm as [Hin _].
    rewrite <- Ems in Hin.
    destruct (dict_get Move_eq_dec (kv :: ms) mv) as [nb |] eqn:Eg; [| discriminate].
    rewrite <- Ems in Eg.
    rewrite (move_states_get board game_spec b cs mv Hin) in Eg. inversion Eg as [Enb].
    assert (Hlegal : exists mv0, In mv0 (available_moves game_spec b) /\
                                 nb = apply_move game_spec b mv0 cs).
    { exists mv. split; [| symmetry; exact Enb].
      apply (move_states_spec board game_spec b cs). exact Hin. }
    destruct (has_winner game_spec nb) as [res |] eqn:Hw.
    + inversion Hrun. subst r path' pos'. destruct first.
      * exists [(nb, cs)]. split; [reflexivity |]. split; [discriminate |].
        split; [simpl; auto |]. split; [constructor | discriminate].
      * exists []. rewrite app_nil_r. split; [reflexivity |]. split; [reflexivity |].
        split; [exact I |]. split; [constructor | discriminate].
    + apply IH in Hrun. destruct Hrun as (ext & Hp & Hf & Hl & Hk & _).
      destruct first.
      * exists ((nb, cs) :: ext). split; [rewrite Hp, <- app_assoc; reflexivity |].
        split; [discriminate |]. split; [simpl; auto |]. split; [| discriminate].
        destruct (dict_contains (pykey_eq_dec board board_eq_dec) samples (KBoard nb))
          eqn:Ec.
        -- destruct ext as [| e ext']; [constructor |].
           change (removelast ((nb, cs) :: e :: ext'))
             with ((nb, cs) :: removelast (e :: ext')).
           constructor; [exact Ec | exact Hk].
        -- rewrite (Hf eq_refl). constructor.
      * exists []. rewrite (Hf eq_refl) in Hp. split; [exact Hp |].
        split; [reflexivity |]. split; [exact I |]. split; [constructor | discriminate].
Qed.

(** X8: the rollout path of an iteration is a play from the root with
    the sides alternating from the searching side: its first entry is
    the state a legal move of the root leads to, and every later entry
    the state a legal move of the entry before leads to. Every entry
    but the last already has samples, and the path is empty only on a
    root without legal moves. *)
Theorem uct_rollout_path_is_a_play :
  forall fuel samples root side pos r path pos',
    descend fuel samples root side true [] pos = Return (r, path, pos') ->
    legal_play game_spec root side path /\
    Forall (known samples) (removelast path) /\
    (available_moves game_spec root <> [] -> path <> []).
Proof.
  intros fuel samples root side pos r path pos' Hrun.
  apply descend_path in Hrun. destruct Hrun as (ext & Hp & _ & Hl & Hk & Hne).
  simpl in Hp. subst ext. split; [exact Hl |]. split; [exact Hk | apply Hne; reflexivity].
Qed.

Lemma backup_keys (path : list (board * Z)) :
  forall v k,
    (In k (dict_keys (state_samples (bkup path v))) <->
     In k (dict_keys (state_samples v)) \/ exists e, In e path /\ k = KBoard (fst e)) /\
    (In k (dict_keys (state_results (bkup path v))) <->
     In k (dict_keys (state_results v)) \/ exists e, In e path /\ k = KBoard (fst e)).
Proof.
  induction path as [| [b s] path IH]; intros v k.
  - simpl. split; (split; [auto | intros [H | (e & [] & _)]; exact H]).
  - cbn [backup fold_left]. fold (bkup path (backup_step board board_eq_dec v (b, s))).
    destruct (IH (backup_step board board_eq_dec v (b, s)) k) as [H1 H2].
    cbn [backup_step state_samples state_results] in H1, H2.
    unfold table_add in H1, H2. rewrite dict_keys_set in H1, H2.
    split.
    + rewrite H1. split.
      * intros [[H | H] | (e & He & Hk)];
          [right; exists (b, s); split; [left; reflexivity | exact H]
          | left; exact H
          | right; exists e; split; [right; exact He | exact Hk]].
      * intros [H | (e & [He | He] & Hk)];
          [left; right; exact H
          | subst e; left; left; exact Hk
          | right; exists e; split; assumption].
    + rewrite H2. split.
      * intros [[H | H] | (e & He & Hk)];
          [right; exists (b, s); split; [left; reflexivity | exact H]
          | left; exact H
          | right; exists e; split; [right; exact He | exact Hk]].
      * intros [H | (e & [He | He] & Hk)];
          [left; right; exact H
          | subst e; left; left; exact Hk
          | right; exists e; split; assumption].
Qed.

(** X9: one iteration of the tree search keeps every key of
    state_samples and adds at most one new key, the last state of its
    rollout path; and when state_results and state_samples have the
    same keys before the iteration they have the same keys after. *)
Theorem uct_iteration_adds_one_state :
  forall fuel root side results samples pos results' samples' pos',
    iteration fuel root side results samples pos = Return (results', samples', pos') ->
    (forall k, In k (dict_keys samples) -> In k (dict_keys samples')) /\
    (forall k1 k2,
        In k1 (dict_keys samples') -> ~ In k1 (dict_keys samples) ->
        In k2 (dict_keys samples') -> ~ In k2 (dict_keys samples) ->
        k1 = k2) /\
    ((forall k, In k (dict_keys results) <-> In k (dict_keys samples)) ->
     forall k, In k (dict_keys results') <-> In k (dict_keys samples')).
Proof.
  intros fuel root side results samples pos results' samples' pos' Hrun.
  unfold uct_iteration in Hrun.
  destruct (descend fuel samples root side true [] pos) as [[[res path] pos1] | |] eqn:Ed;
    cbn [bind] in Hrun; try discriminate.
  inversion Hrun. subst results' samples' pos'. clear Hrun.
  assert (Hk : Forall (known samples) (removelast path)).
  { destruct (descend_path _ _ _ _ _ _ _ _ _ _ Ed) as (ext & Hp & _ & _ & Hk & _).
    simpl in Hp. subst ext. exact Hk. }
  set (v := {| result := inject_Z res; state_results := results;
               state_samples := samples |}).
  assert (Hnew : forall k, In k (dict_keys (state_samples (bkup path v))) ->
                           ~ In k (dict_keys samples) ->
                           path <> [] /\ k = KBoard (fst (last path (root, side)))).
  { intros k Hin Hnot. apply (proj1 (backup_keys path v k)) in Hin.
    destruct Hin as [Hin | (e & He & Hke)]; [contradiction |].
    assert (Hp : path <> []) by (intro H0; rewrite H0 in He; exact He).
    split; [exact Hp |].
    rewrite (app_removelast_last (root, side) Hp) in He.
    apply in_app_or in He. destruct He as [He | [He | []]].
    - exfalso. apply Hnot. rewrite Forall_forall in Hk. specialize (Hk e He).
      apply dict_contains_keys in Hk. subst k. exact Hk.
    - subst e. exact Hke. }
  split; [| split].
  - intros k Hin. apply (proj1 (backup_keys path v k)). left. exact Hin.
  - intros k1 k2 H1 N1 H2 N2.
    destruct (Hnew k1 H1 N1) as [_ E1]. destruct (Hnew k2 H2 N2) as [_ E2]. congruence.
  - intros Hsame k. destruct (backup_keys path v k) as [Hs Hr].
    rewrite Hs, Hr. cbn [state_samples state_results v]. rewrite (Hsame k). tauto.
Qed.

End TreeMore.

Lemma uct_rollout_path_is_a_play_witness :
  legal_play toy_spec Root 1 [(A, 1); (L, -1)] /\
  Forall (fun e : toy * Z =>
            dict_contains (pykey_eq_dec toy toy_eq_dec) [(KBoard A, 1%Q)] (KBoard (fst e))
            = true)
         (removelast [(A, 1); (L, -1)]).
Proof.
  destruct (uct_rollout_path_is_a_play toy toy_eq_dec toy_spec (draws [0; 1; 0; 1]%nat)
              3 [(KBoard A, 1%Q)] Root 1 2 (-1) [(A, 1); (L, -1)] 4%nat
              ltac:(vm_compute; reflexivity)) as (H1 & H2 & _).
  split; [exact H1 | exact H2].
Defined.

Lemma uct_iteration_adds_one_state_witness :
  exists results' samples' pos',
    uct_iteration toy toy_eq_dec toy_spec (draws [0; 1; 0; 1]%nat) 3 Root 1
      [(KBoard A, 0 # 4)%Q] [(KBoard A, 1%Q)] 2 = Return (results', samples', pos') /\
    dict_keys samples' = [KBoard A; KBoard L] /\
    forall k1 k2 : pykey toy,
      In k1 (dict_keys samples') -> ~ In k1 [KBoard A] ->
      In k2 (dict_keys samples') -> ~ In k2 [KBoard A] ->
      k1 = k2.
Proof.
  destruct (uct_iteration toy toy_eq_dec toy_spec (draws [0; 1; 0; 1]%nat) 3 Root 1
              [(KBoard A, 0 # 4)%Q] [(KBoard A, 1%Q)] 2)
    as [[[results' samples'] pos'] | |] eqn:E.
  - exists results', samples', pos'. split; [reflexivity |]. split.
    + vm_compute in E. inversion E. reflexivity.
    + apply (proj1 (proj2 (uct_iteration_adds_one_state toy toy_eq_dec toy_spec
                             (draws [0; 1; 0; 1]%nat) 3 Root 1
                             [(KBoard A, 0 # 4)%Q] [(KBoard A, 1%Q)] 2
                             results' samples' pos' E))).
  - vm_compute in E. discriminate.
  - vm_compute in E. discriminate.
Defined.

(** ** The final selection of the tree search *)

Lemma Qltb_lt_true (x y : Q) : (x < y)%Q -> Qltb x y = true.
Proof.
  intro H. unfold Qltb. apply negb_true_iff.
  destruct (Qle_bool y x) eqn:E; [| reflexivity].
  apply Qle_bool_iff in E. exfalso. exact (Qlt_not_le _ _ H E).
Qed.

Lemma Qdiv_pos (a b : Q) : (0 < a)%Q -> (0 < b)%Q -> (0 < a / b)%Q.
Proof.
  intros Ha Hb. apply Qlt_shift_div_l; [exact Hb |]. rewrite Qmult_0_l. exact Ha.
Qed.

Lemma Qdiv_nonpos (a b : Q) : (a <= 0)%Q -> (0 < b)%Q -> (a / b <= 0)%Q.
Proof.
  intros Ha Hb. apply Qle_shift_div_r; [exact Hb |]. rewrite Qmult_0_l. exact Ha.
Qed.

Lemma Qdiv_unit (a b : Q) : (0 <= a <= b)%Q -> (0 < b)%Q -> (0 <= a / b <= 1)%Q.
Proof.
  intros [Ha Hab] Hb. split.
  - apply Qle_shift_div_l; [exact Hb |]. rewrite Qmult_0_l. exact Ha.
  - apply Qle_shift_div_r; [exact Hb |]. rewrite Qmult_1_l. exact Hab.
Qed.

Lemma Qpos_of_nonneg_nonzero (x : Q) :
  (0 <= x)%Q -> Qeq_bool x 0 = false -> (0 < x)%Q.
Proof.
  intros Hx Hz. apply Qnot_le_lt. intro Hle.
  assert (E : (x == 0)%Q) by (apply Qle_antisym; assumption).
  apply Qeq_bool_iff in E. congruence.
Qed.

Section TreeSelect.
Variable board : Type.
Variable board_eq_dec : forall x y : board, {x = y} + {x <> y}.
Variable game_spec : BaseGameSpec board.
Variable oracle : nat -> nat.

Local Abbreviation titem := (table_item board board_eq_dec).
Local Abbreviation states_of := (move_states_of board game_spec).
Local Abbreviation iterations := (uct_iterations board board_eq_dec game_spec oracle).
Local Abbreviation bkup := (backup board board_eq_dec).
Local Abbreviation finish := (uct_finish board board_eq_dec game_spec).
Local Abbreviation uct := (monte_carlo_tree_search_uct board board_eq_dec game_spec oracle).
Local Abbreviation divisor := (ranking_divisor board board_eq_dec).
Local Abbreviation child := (fun (root : board) (side : Z) (mv : Move) =>
  KBoard (apply_move game_spec root mv side)).

Lemma ranking_divisor_pos (samples : table board) (b : board) :
  (0 < divisor samples b)%Q.
Proof.
  unfold ranking_divisor.
  destruct (Qltb 0 (titem samples (KBoard b))) eqn:E.
  - apply Qltb_true_lt. exact E.
  - reflexivity.
Qed.

Lemma ranking_divisor_sampled (samples : table board) (b : board) :
  (0 < titem samples (KBoard b))%Q -> divisor samples b = titem samples (KBoard b).
Proof.
  intro H. unfold ranking_divisor. rewrite (Qltb_lt_true _ _ H). reflexivity.
Qed.

Lemma backup_samples_nonneg (path : list (board * Z)) :
  forall v,
    (forall k, (0 <= titem (state_samples v) k)%Q) ->
    forall k, (0 <= titem (state_samples (bkup path v)) k)%Q.
Proof.
  induction path as [| [b s] path IH]; intros v Hv; [exact Hv |].
  cbn [backup fold_left]. apply IH. intro k.
  cbn [backup_step state_samples]. rewrite table_add_item. specialize (Hv k).
  destruct (pykey_eq_dec board board_eq_dec k (KBoard b)); [subst; Lqa.lra | exact Hv].
Qed.

Lemma iterations_samples_nonneg fuel root side :
  forall n results samples pos results' samples' pos',
    (forall k, (0 <= titem samples k)%Q) ->
    iterations n fuel root side results samples pos = Return (results', samples', pos') ->
    forall k, (0 <= titem samples' k)%Q.
Proof.
  induction n as [| n IH]; intros results samples pos results' samples' pos' Hs Hrun;
    simpl in Hrun.
  - inversion Hrun. subst. exact Hs.
  - unfold uct_iteration in Hrun.
    destruct (uct_descend board board_eq_dec game_spec oracle fuel samples root side
                true [] pos) as [[[res path] pos1] | |]; cbn [bind] in Hrun;
      try discriminate.
    eapply IH; [| exact Hrun]. apply backup_samples_nonneg. exact Hs.
Qed.

(** the final selection names the first legal move whose ranking
    score no other legal move exceeds *)
Lemma uct_finish_best (root : board) (side : Z) (results samples : table board) :
  available_moves game_spec root <> [] ->
  exists mv,
    In mv (available_moves game_spec root) /\
    finish root side results samples =
      (c <- py_div (titem results (child root side mv)) (titem samples (child root side mv)) ;;
       Return (c, mv)) /\
    forall mv',
      In mv' (available_moves game_spec root) ->
      (titem results (child root side mv')
         / divisor samples (apply_move game_spec root mv' side)
       <= titem results (child root side mv)
          / divisor samples (apply_move game_spec root mv side))%Q.
Proof.
  intro Hne. unfold uct_finish.
  destruct (move_states_spec board game_spec root side) as (_ & Hkeys & _).
  pose proof (move_states_nonempty board game_spec root side Hne) as Hms.
  set (g := fun x : Move =>
              (titem results (child root side x)
               / divisor samples (apply_move game_spec root x side))%Q).
  unfold py_max. rewrite (with_keys_map _ g).
  - cbn [bind].
    destruct (py_select_first (X := Move) (fun new best => Qltb best new)
                Qltb_trans Qltb_over
                (map (fun x => (x, g x)) (dict_keys (states_of root side))))
      as (m & pre & w & post & Hsel & Heq & H1 & H2).
    { destruct (states_of root side); [congruence | discriminate]. }
    rewrite Hsel. cbn [bind].
    assert (Hm : In (m, w) (map (fun x => (x, g x)) (dict_keys (states_of root side)))).
    { rewrite Heq. apply in_or_app. right. left. reflexivity. }
    apply in_map_iff in Hm. destruct Hm as (x & Hx & Hin).
    injection Hx as Hxm Hw0. subst x.
    exists m. split; [apply Hkeys; exact Hin |].
    rewrite (move_states_get board game_spec root side m Hin). cbn [bind].
    split; [reflexivity |].
    intros mv' Hmv'. apply Hkeys in Hmv'.
    assert (Hm' : In (mv', g mv')
                    (map (fun x => (x, g x)) (dict_keys (states_of root side)))).
    { apply in_map_iff. exists mv'. split; [reflexivity | exact Hmv']. }
    rewrite Heq in Hm'. apply in_app_or in Hm'.
    fold (g mv'). fold (g m). rewrite Hw0.
    destruct Hm' as [Hp | [Hp | Hp]].
    + specialize (H1 _ Hp). simpl in H1. apply Qltb_true_lt in H1.
      apply Qlt_le_weak. exact H1.
    + inversion Hp. apply Qle_refl.
    + specialize (H2 _ Hp). simpl in H2. apply Qltb_false_le in H2. exact H2.
  - intros x Hx. rewrite (move_states_get board game_spec root side x Hx). cbn [bind].
    unfold py_div. rewrite ranking_divisor_nonzero. reflexivity.
Qed.

Lemma uct_finish_no_moves (root : board) (side : Z) (results samples : table board) :
  available_moves game_spec root = [] ->
  finish root side results samples = Raise ValueError.
Proof.
  intro H. unfold uct_finish, move_states_of. rewrite H. reflexivity.
Qed.

Lemma uct_return_shape :
  forall fuel root side N pos results samples pos' c mv,
    iterations (Z.to_nat N) fuel root side [] [] pos = Return (results, samples, pos') ->
    uct fuel root side N pos = Return (c, mv) ->
    In mv (available_moves game_spec root) /\
    (0 < titem samples (child root side mv))%Q /\
    c = (titem results (child root side mv) / titem samples (child root side mv))%Q /\
    forall mv',
      In mv' (available_moves game_spec root) ->
      (0 < titem samples (child root side mv'))%Q ->
      (titem results (child root side mv') / titem samples (child root side mv') <= c)%Q.
Proof.
  intros fuel root side N pos results samples pos' c mv Hrun Hret.
  assert (Hnn : forall k, (0 <= titem samples k)%Q).
  { eapply iterations_samples_nonneg; [| exact Hrun].
    intro k. unfold table_item, dict_item. simpl. Lqa.lra. }
  unfold monte_carlo_tree_search_uct in Hret. rewrite Hrun in Hret. cbn [bind] in Hret.
  destruct (available_moves game_spec root) as [| m0 ms] eqn:Hm.
  { rewrite uct_finish_no_moves in Hret by exact Hm. discriminate. }
  rewrite <- Hm in *.
  destruct (uct_finish_best root side results samples) as (m & Hin & Hfin & Hbest);
    [rewrite Hm; discriminate |].
  rewrite Hfin in Hret. unfold py_div in Hret.
  destruct (Qeq_bool (titem samples (child root side m)) 0) eqn:Ez;
    cbn [bind] in Hret; [discriminate |].
  inversion Hret. subst mv. clear Hret.
  pose proof (Qpos_of_nonneg_nonzero _ (Hnn _) Ez) as Hpos.
  split; [exact Hin |]. split; [exact Hpos |]. split; [reflexivity |].
  intros mv' Hin' Hpos'. specialize (Hbest mv' Hin').
  rewrite (ranking_divisor_sampled samples _ Hpos) in Hbest.
  rewrite (ranking_divisor_sampled samples _ Hpos') in Hbest. exact Hbest.
Qed.

(** X10: when the tree search returns, the move is a legal move of the
    root whose child state has samples, the confidence is that child's
    accumulated score over its samples, and no child of the root that
    has samples has a larger score over samples. *)
Theorem uct_returns_best_sampled_child :
  forall fuel root side N pos results samples pos' c mv,
    uct_iterations board board_eq_dec game_spec oracle
      (Z.to_nat N) fuel root side [] [] pos = Return (results, samples, pos') ->
    monte_carlo_tree_search_uct board board_eq_dec game_spec oracle
      fuel root side N pos = Return (c, mv) ->
    In mv (available_moves game_spec root) /\
    (0 < titem samples (child root side mv))%Q /\
    c = (titem results (child root side mv) / titem samples (child root side mv))%Q /\
    forall mv',
      In mv' (available_moves game_spec root) ->
      (0 < titem samples (child root side mv'))%Q ->
      (titem results (child root side mv') / titem samples (child root side mv') <= c)%Q.
Proof. exact uct_return_shape. Qed.

(** X11: with results in {-1, 0, +1} and a side that is +1 or -1, the
    confidence the tree search returns lies between 0 and 1. *)
Theorem uct_confidence_in_unit_interval :
  results_in_range game_spec ->
  forall side, is_side side ->
  forall fuel root N pos c mv,
    monte_carlo_tree_search_uct board board_eq_dec game_spec oracle
      fuel root side N pos = Return (c, mv) ->
    (0 <= c <= 1)%Q.
Proof.
  intros Hrange side Hside fuel root N pos c mv Hret.
  destruct (iterations (Z.to_nat N) fuel root side [] [] pos)
    as [[[results samples] pos'] | |] eqn:Hrun;
    try (unfold monte_carlo_tree_search_uct in Hret; rewrite Hrun in Hret; discriminate).
  destruct (uct_return_shape _ _ _ _ _ _ _ _ _ _ Hrun Hret)
    as (_ & Hpos & Hc & _).
  pose proof (iterations_bounded board board_eq_dec game_spec oracle Hrange side Hside
                _ _ _ _ _ _ _ _ _ (bounded_empty board board_eq_dec) Hrun) as Hb.
  subst c. apply Qdiv_unit; [apply Hb | exact Hpos].
Qed.

(** X12: with results in {-1, 0, +1} and a side that is +1 or -1, once
    some child of the root has a positive accumulated score the tree
    search returns a legal move, with a positive confidence: the
    division of its return statement cannot fail then. *)
Theorem uct_returns_when_a_child_scored :
  results_in_range game_spec ->
  forall side, is_side side ->
  forall fuel root N pos results samples pos' mv',
    iterations (Z.to_nat N) fuel root side [] [] pos = Return (results, samples, pos') ->
    In mv' (available_moves game_spec root) ->
    (0 < titem results (child root side mv'))%Q ->
    exists c mv,
      monte_carlo_tree_search_uct board board_eq_dec game_spec oracle
        fuel root side N pos = Return (c, mv) /\
      In mv (available_moves game_spec root) /\
      (0 < c)%Q.
Proof.
  intros Hrange side Hside fuel root N pos results samples pos' mv' Hrun Hin' Hpos'.
  pose proof (iterations_bounded board board_eq_dec game_spec oracle Hrange side Hside
                _ _ _ _ _ _ _ _ _ (bounded_empty board board_eq_dec) Hrun) as Hb.
  destruct (uct_finish_best root side results samples) as (m & Hin & Hfin & Hbest).
  { intro H0. rewrite H0 in Hin'. exact Hin'. }
  specialize (Hbest mv' Hin').
  pose proof (Qdiv_pos _ _ Hpos' (ranking_divisor_pos samples
                                    (apply_move game_spec root mv' side))) as Hkey'.
  assert (Hres : (0 < titem results (child root side m))%Q).
  { apply Qnot_le_lt. intro Hle.
    pose proof (Qdiv_nonpos _ _ Hle (ranking_divisor_pos samples
                                       (apply_move game_spec root m side))) as Hkey.
    apply (Qlt_not_le _ _ Hkey'). eapply Qle_trans; eassumption. }
  assert (Hsam : (0 < titem samples (child root side m))%Q).
  { eapply Qlt_le_trans; [exact Hres | apply Hb]. }
  unfold monte_carlo_tree_search_uct. rewrite Hrun. cbn [bind]. rewrite Hfin.
  unfold py_div.
  destruct (Qeq_bool (titem samples (child root side m)) 0) eqn:Ez.
  - apply Qeq_bool_iff in Ez. rewrite Ez in Hsam. exfalso. exact (Qlt_irrefl _ Hsam).
  - cbn [bind]. eexists. exists m. split; [reflexivity |].
    split; [exact Hin | apply Qdiv_pos; assumption].
Qed.

End TreeSelect.

Lemma uct_returns_best_sampled_child_witness :
  In (0, 1) (toy_available_moves Root) /\
  (0 < table_item toy toy_eq_dec (snd toy_tables_3) (KBoard B))%Q.
Proof.
  destruct (uct_returns_best_sampled_child toy toy_eq_dec toy_spec (draws [1; 0; 1; 0]%nat)
              3 Root 1 3 0 (fst toy_tables_3) (snd toy_tables_3)
              5%nat (4 # 4)%Q (0, 1))
    as (H1 & H2 & _).
  - vm_compute. reflexivity.
  - vm_compute. reflexivity.
  - split; [exact H1 | exact H2].
Defined.

Lemma uct_confidence_in_unit_interval_witness : (0 <= 4 # 4 <= 1)%Q.
Proof.
  apply (uct_confidence_in_unit_interval toy toy_eq_dec toy_spec (draws [1; 0; 1; 0]%nat)
           toy_results_in_range 1 (or_introl eq_refl) 3 Root 3 0 (4 # 4)%Q (0, 1)).
  vm_compute. reflexivity.
Defined.

Lemma uct_returns_when_a_child_scored_witness :
  exists c mv,
    toy_uct [1; 0; 1; 0]%nat 3 Root 1 3 0 = Return (c, mv) /\
    In mv (toy_available_moves Root) /\
    (0 < c)%Q.
Proof.
  apply (uct_returns_when_a_child_scored toy toy_eq_dec toy_spec (draws [1; 0; 1; 0]%nat)
           toy_results_in_range 1 (or_introl eq_refl) 3 Root 3 0
           (fst toy_tables_3) (snd toy_tables_3) 5%nat (0, 1)).
  - vm_compute. reflexivity.
  - simpl. auto.
  - vm_compute. reflexivity.
Defined.

(** ** The child states, the rollout result, the UCB1 score *)

Section ChildStates.
Variable board : Type.
Variable game_spec : BaseGameSpec board.
Variable oracle : nat -> nat.
Variable network : nat -> board -> Z -> list Z.

Local Abbreviation states_of := (move_states_of board game_spec).
Local Abbreviation sample := (_monte_carlo_sample board game_spec oracle network).

(** X13: the dictionary of child states that the tree search builds
    has one entry for each distinct legal move, also when the game
    lists a move twice; looking a legal move up gives the state that
    applying it leads to, a move that is not legal is not a key, and
    the dictionary is empty exactly when there is no legal move. *)
Theorem child_states_one_entry_per_move :
  forall (b : board) (side : Z),
    NoDup (dict_keys (states_of b side)) /\
    (forall mv, In mv (available_moves game_spec b) ->
                dict_get Move_eq_dec (states_of b side) mv
                = Some (apply_move game_spec b mv side)) /\
    (forall mv, ~ In mv (available_moves game_spec b) ->
                dict_get Move_eq_dec (states_of b side) mv = None) /\
    (states_of b side = [] <-> available_moves game_spec b = []).
Proof.
  intros b side.
  destruct (move_states_spec board game_spec b side) as (Hnd & Hkeys & _).
  split; [exact Hnd |]. split; [| split].
  - intros mv Hin. apply move_states_get. apply Hkeys. exact Hin.
  - intros mv Hnot. apply dict_get_none. intro Hin. apply Hnot. apply Hkeys. exact Hin.
  - split.
    + intro Hms. destruct (available_moves game_spec b) as [| m l] eqn:E; [reflexivity |].
      exfalso. apply (move_states_nonempty board game_spec b side).
      * rewrite E. discriminate.
      * exact Hms.
    + intro Hm. unfold move_states_of. rewrite Hm. reflexivity.
Qed.

(** X14: with results in {-1, 0, +1} the result of a rollout, in
    either mode, lies between -1 and 1; a rollout never moves the
    random source backwards, and one that reports no move has not
    drawn from it. *)
Theorem sample_result_in_range :
  results_in_range game_spec ->
  forall fuel b side policy pos r m pos',
    sample fuel b side policy pos = Return (r, m, pos') ->
    -1 <= r <= 1 /\ (pos <= pos')%nat /\ (m = None -> pos' = pos).
Proof.
  intros Hrange fuel. induction fuel as [| fuel IH];
    intros b side policy pos r m pos' Hrun; [discriminate |].
  destruct (has_winner game_spec b) as [r0 |] eqn:Hw.
  - rewrite (sample_terminal board game_spec oracle network _ _ _ _ _ _ Hw) in Hrun.
    inversion Hrun. subst. split; [eapply Hrange; exact Hw | split; [lia | reflexivity]].
  - destruct (available_moves game_spec b) as [| m0 ms] eqn:Hm.
    + rewrite (sample_no_moves board game_spec oracle network _ _ _ _ _ Hw Hm) in Hrun.
      inversion Hrun. subst. split; [lia | split; [lia | reflexivity]].
    + rewrite (sample_step board game_spec oracle network) in Hrun by congruence.
      destruct (select_move board game_spec oracle network policy b side
                  (available_moves game_spec b) pos) as [[mv pos1] | |] eqn:Ep;
        cbn [bind] in Hrun; try discriminate.
      assert (Hpos1 : pos1 = S pos).
      { unfold select_move in Ep. destruct policy.
        - destruct (indices_of_one 0 (network pos b side)); [discriminate |].
          inversion Ep. reflexivity.
        - apply random_choice_return in Ep. apply Ep. }
      destruct (sample fuel (apply_move game_spec b mv side) (- side) policy pos1)
        as [[[r1 m1] p1] | |] eqn:Es; cbn [bind] in Hrun; try discriminate.
      inversion Hrun. subst r m pos'. apply IH in Es.
      destruct Es as (Hr & Hp & _). split; [exact Hr |]. split; [lia | discriminate].
Qed.

End ChildStates.

Lemma child_states_one_entry_per_move_witness :
  dict_get Move_eq_dec (move_states_of toy toy_spec Root 1) (0, 1) = Some B /\
  dict_get Move_eq_dec (move_states_of toy toy_spec Root 1) (2, 2) = None.
Proof.
  split.
  - apply (proj1 (proj2 (child_states_one_entry_per_move toy toy_spec Root 1)) (0, 1)).
    simpl. auto.
  - apply (proj1 (proj2 (proj2 (child_states_one_entry_per_move toy toy_spec Root 1)))
             (2, 2)).
    simpl. intros [H | [H | []]]; discriminate.
Defined.

Lemma sample_result_in_range_witness : -1 <= -1 <= 1 /\ (0 <= 2)%nat.
Proof.
  destruct (sample_result_in_range toy toy_spec (draws [0; 1]%nat) toy_network
              toy_results_in_range 3 Root 1 false 0 (-1) (Some (0, 0)) 2%nat eq_refl)
    as (H1 & H2 & _).
  split; [exact H1 | exact H2].
Defined.

(** X15: for a positive sample count and a logarithm that is not
    negative, the UCB1 score is strictly increasing in the payout and
    never below the mean payout, which it equals when the logarithm is
    0, that is when the siblings have one sample in all. *)
Theorem ucb_monotone_in_payout :
  forall payout1 payout2 samples log_total : R,
    (0 < samples)%R -> (0 <= log_total)%R ->
    (payout1 < payout2 ->
     _upper_confidence_bounds payout1 samples log_total
     < _upper_confidence_bounds payout2 samples log_total)%R /\
    (payout1 / samples <= _upper_confidence_bounds payout1 samples log_total)%R /\
    (log_total = 0%R ->
     _upper_confidence_bounds payout1 samples log_total = (payout1 / samples)%R).
Proof.
  intros p1 p2 n l Hn Hl. unfold _upper_confidence_bounds. split; [| split].
  - intro Hp. apply Rplus_lt_compat_r. unfold Rdiv.
    apply Rmult_lt_compat_r; [apply Rinv_0_lt_compat; exact Hn | exact Hp].
  - pose proof (sqrt_pos (2 * l / n)). lra.
  - intro H0. subst l. replace (2 * 0 / n)%R with 0%R by (unfold Rdiv; ring).
    rewrite sqrt_0. ring.
Qed.

Lemma ucb_monotone_in_payout_witness :
  (_upper_confidence_bounds 0 1 (ln 2) < _upper_confidence_bounds 1 1 (ln 2))%R.
Proof.
  apply (proj1 (ucb_monotone_in_payout 0 1 1 (ln 2) ltac:(lra)
                  ltac:(rewrite <- ln_1; apply Rlt_le, ln_increasing; lra))).
  lra.
Defined.
